(** * The per-key revision index of the storage package (key_index.go)

    A shallow embedding of [keyIndex], [generation] and [reversion] and of
    the methods [put], [tombstone], [get], [compact], [isEmpty],
    [findGeneration] and [walk], followed by the properties of the
    index that its specification states. *)

From Stdlib Require Import ZArith.
From Stdlib.Strings Require Import Byte.
From stdpp Require Import base tactics option list sorting gmap.

Local Open Scope Z_scope.

(** ** Machine integers *)

(** Go's [int64] arithmetic wraps around; [wrap64] is the two's complement
    reduction that [g.ver++] performs. *)
Definition wrap64 (z : Z) : Z := (z + 2 ^ 63) mod 2 ^ 64 - 2 ^ 63.

(** ** Data model *)

Record reversion : Type := Reversion { main : Z; sub : Z }.

Record generation : Type := Generation { ver : Z; revs : list reversion }.

Record keyIndex : Type :=
  KeyIndex { key : list byte; rev : Z; generations : list generation }.

(** The error values of the package. *)
Inductive error : Type := ErrReversionNotFound.

#[global] Instance reversion_eq_dec : EqDecision reversion.
Proof. solve_decision. Defined.

#[global] Instance reversion_countable : Countable reversion.
Proof.
  refine (inj_countable' (fun r => (main r, sub r))
                         (fun p => Reversion (fst p) (snd p)) _).
  intros []; reflexivity.
Defined.

#[global] Instance generation_eq_dec : EqDecision generation.
Proof. solve_decision. Defined.

(** [generation{}] and [reversion{}]: Go's zero values. *)
Definition zero_generation : generation := Generation 0 [].
Definition zero_reversion : reversion := Reversion 0 0.

(** A [*generation] obtained from [&ki.generations[cg]] is the position
    [cg] in the slice; [nil] is [None]. *)
Definition gen_ptr : Type := option nat.

Definition deref (gens : list generation) (p : gen_ptr) : option generation :=
  match p with
  | Some cg => gens !! cg
  | None => None
  end.

(** ** Methods that mutate or panic

    A method runs on the receiver's state and either returns normally or
    panics ([log.Panicf]); in both cases the state reached so far stays
    observable, as it does in Go once the panic is recovered. *)

Inductive result (St A : Type) : Type :=
| Done (a : A) (s : St)
| Panicked (s : St).
Arguments Done {St A} a s.
Arguments Panicked {St A} s.

Definition final {St A} (r : result St A) : St :=
  match r with Done _ s => s | Panicked s => s end.

Definition panicked {St A} (r : result St A) : bool :=
  match r with Done _ _ => false | Panicked _ => true end.

Definition M (St A : Type) : Type := St -> result St A.

Definition ret {St A} (a : A) : M St A := fun s => Done a s.

Definition bind {St A B} (m : M St A) (k : A -> M St B) : M St B :=
  fun s => match m s with
           | Done a s' => k a s'
           | Panicked s' => Panicked s'
           end.

Definition panic {St A} : M St A := fun s => Panicked s.
Definition getS {St} : M St St := fun s => Done s s.
Definition modify {St} (f : St -> St) : M St unit := fun s => Done tt (f s).

Declare Scope go_scope.
Delimit Scope go_scope with go.
Notation "'do' x <- m ; k" := (bind m (fun x => k))
  (at level 10, x name, m at level 100, k at level 200) : go_scope.
Notation "m ;; k" := (bind m (fun _ => k))
  (at level 100, k at level 200, right associativity) : go_scope.
Local Open Scope go_scope.

Definition when {St} (b : bool) (m : M St unit) : M St unit :=
  if b then m else ret tt.

(** ** The functions of Go's [bytes] package that the index calls *)

Module bytes.

(** [bytes.Compare]: lexicographic comparison of two byte slices, the bytes
    taken as unsigned values; the result is -1, 0 or +1. *)
Fixpoint Compare (a b : list byte) : Z :=
  match a, b with
  | [], [] => 0
  | [], _ :: _ => -1
  | _ :: _, [] => 1
  | x :: a', y :: b' =>
      if (Byte.to_N x <? Byte.to_N y)%N then -1
      else if (Byte.to_N y <? Byte.to_N x)%N then 1
      else Compare a' b'
  end.

(** [bytes.Equal]: the same length and the same bytes. *)
Fixpoint Equal (a b : list byte) : bool :=
  match a, b with
  | [], [] => true
  | x :: a', y :: b' => Byte.eqb x y && Equal a' b'
  | _, _ => false
  end.

End bytes.

(** ** generation *)

Module Gen.

(** [func (g *generation) isEmpty() bool]; the receiver may be nil. *)
Definition isEmpty (g : option generation) : bool :=
  match g with
  | None => true
  | Some g => (Z.of_nat (length (revs g)) =? 0)
  end.

(** The loop of [walk]: [k] positions are still to be visited, the next
    one is [k - 1] (that is [l-i-1] for [i = l - k]). *)
Fixpoint walk_loop {St} (f : reversion -> M St bool)
         (rs : list reversion) (k : nat) : M St Z :=
  match k with
  | O => ret (-1)
  | S k' =>
      match rs !! k' with
      | Some r =>
          do ok <- f r;
          if negb ok then ret (Z.of_nat k') else walk_loop f rs k'
      | None => panic
      end
  end.

(** [func (g *generation) walk(f func(rev reversion) bool) int] *)
Definition walk {St} (g : generation) (f : reversion -> M St bool) : M St Z :=
  walk_loop f (revs g) (length (revs g)).

(** [ar != br] on two [reversion] structs compares them field by field. *)
Definition reversion_eqb (a b : reversion) : bool :=
  (main a =? main b) && (sub a =? sub b).

(** The loop of [equal]: [n] positions from [i] on are still to be
    compared.  Both slices have the same length when it runs. *)
Fixpoint equal_loop (ra rb : list reversion) (i n : nat) : bool :=
  match n with
  | O => true
  | S n' =>
      match ra !! i, rb !! i with
      | Some ar, Some br =>
          if negb (reversion_eqb ar br) then false
          else equal_loop ra rb (S i) n'
      | _, _ => false
      end
  end.

(** [func (a generation) equal(b generation) bool] *)
Definition equal (a b : generation) : bool :=
  if negb (ver a =? ver b) then false
  else if negb (Z.of_nat (length (revs a)) =? Z.of_nat (length (revs b))) then false
  else equal_loop (revs a) (revs b) 0 (length (revs a)).

End Gen.

(** ** keyIndex *)

Module KI.

(** [func (ki *keyIndex) isEmpty() bool] *)
Definition isEmpty (ki : keyIndex) : bool :=
  (Z.of_nat (length (generations ki)) =? 1)
  && match generations ki !! 0%nat with
     | Some g => Gen.isEmpty (Some g)
     | None => false
     end.

(** The loop of [findGeneration]; [k] is [cg + 1]. *)
Fixpoint findGeneration_loop (gens : list generation) (rev0 : Z) (k : nat)
  : gen_ptr :=
  match k with
  | O => None
  | S cg =>
      match gens !! cg with
      | Some g =>
          match revs g with
          | [] => findGeneration_loop gens rev0 cg
          | r0 :: _ =>
              if main r0 <=? rev0 then Some cg
              else findGeneration_loop gens rev0 cg
          end
      | None => None
      end
  end.

(** [func (ki *keyIndex) findGeneration(rev int64) *generation] *)
Definition findGeneration (ki : keyIndex) (rev0 : Z) : gen_ptr :=
  findGeneration_loop (generations ki) rev0 (length (generations ki)).

Definition set_generations (gens : list generation) (ki : keyIndex) : keyIndex :=
  KeyIndex (key ki) (rev ki) gens.

Definition set_rev (r : Z) (ki : keyIndex) : keyIndex :=
  KeyIndex (key ki) r (generations ki).

(** Assignment through a [*generation]: the pointed element of the slice
    is replaced.  Every pointer the methods write through was taken from
    a position inside the slice. *)
Definition update_gen (p : nat) (h : generation -> generation) (ki : keyIndex)
  : keyIndex :=
  set_generations (alter h p (generations ki)) ki.

(** [func (ki *keyIndex) put(rev int64, subrev int64)] *)
Definition put (rev0 subrev : Z) : M keyIndex unit :=
  do ki <- getS;
  if rev0 <? rev ki then panic
  else
    when (Z.of_nat (length (generations ki)) =? 0)
         (modify (fun ki => set_generations (generations ki ++ [zero_generation]) ki)) ;;
    do ki <- getS;
    let g := (length (generations ki) - 1)%nat in
    modify (update_gen g (fun g => Generation (ver g) (revs g ++ [Reversion rev0 subrev]))) ;;
    modify (update_gen g (fun g => Generation (wrap64 (ver g + 1)) (revs g))) ;;
    modify (set_rev rev0).

(** [func (ki *keyIndex) tombstone(rev int64, subrev int64)] *)
Definition tombstone (rev0 subrev : Z) : M keyIndex unit :=
  do ki <- getS;
  if isEmpty ki then panic
  else
    put rev0 subrev ;;
    modify (fun ki => set_generations (generations ki ++ [zero_generation]) ki).

(** [func (ki *keyIndex) get(atRev int64) (rev reversion, err error)] *)
Definition get (atRev : Z) : M keyIndex (reversion * option error) :=
  do ki <- getS;
  if isEmpty ki then panic
  else
    let g := findGeneration ki atRev in
    if Gen.isEmpty (deref (generations ki) g)
    then ret (zero_reversion, Some ErrReversionNotFound)
    else
      let f (r : reversion) : M keyIndex bool :=
        if main r <=? atRev then ret false else ret true in
      match deref (generations ki) g with
      | None => panic
      | Some gv =>
          do n <- Gen.walk gv f;
          if negb (n =? -1) then
            match revs gv !! Z.to_nat n with
            | Some r => ret (r, None)
            | None => panic
            end
          else ret (zero_reversion, Some ErrReversionNotFound)
      end.

(** The loop of [compact] that turns the pointer [g] back into the
    position [i] of the generation it points to. *)
Fixpoint locate_loop (len : nat) (g : nat) (i : nat) (fuel : nat) : nat :=
  match fuel with
  | O => i
  | S fuel' =>
      if (Z.of_nat i <=? Z.of_nat len - 1)
      then if (i =? g)%nat then i else locate_loop len g (i + 1)%nat fuel'
      else i
  end.

Definition locate (gens : list generation) (g : nat) : nat :=
  locate_loop (length gens) g 0%nat (S (length gens)).

(** [func (ki *keyIndex) compact(atRev int64, available map[reversion]struct{})];
    the state is the receiver together with the caller's [available] map. *)
Definition compact (atRev : Z) : M (keyIndex * gset reversion) unit :=
  do s <- getS;
  if isEmpty (fst s) then panic
  else
    let f (r : reversion) : M (keyIndex * gset reversion) bool :=
      if main r <=? atRev
      then modify (fun s => (fst s, {[ r ]} ∪ snd s)) ;; ret false
      else ret true in
    match findGeneration (fst s) atRev with
    | None => ret tt
    | Some g =>
        let i := locate (generations (fst s)) g in
        do i <-
          (match generations (fst s) !! g with
           | None => panic
           | Some gv =>
               if negb (Gen.isEmpty (Some gv)) then
                 do n <- Gen.walk gv f;
                 when (negb (n =? -1))
                      (modify (fun s =>
                         (update_gen g (fun gv => Generation (ver gv) (drop (Z.to_nat n) (revs gv))) (fst s),
                          snd s))) ;;
                 do s <- getS;
                 match generations (fst s) !! g with
                 | None => panic
                 | Some gv =>
                     if (Z.of_nat (length (revs gv)) =? 1)
                        && negb (Z.of_nat i =? Z.of_nat (length (generations (fst s))) - 1)
                     then
                       match revs gv !! 0%nat with
                       | None => panic
                       | Some r0 =>
                           modify (fun s => (fst s, snd s ∖ {[ r0 ]})) ;;
                           ret (i + 1)%nat
                       end
                     else ret i
                 end
               else ret i
           end);
        modify (fun s => (set_generations (drop i (generations (fst s))) (fst s), snd s))
    end.

(** [func (a *keyIndex) Less(b btree.Item) bool], for a [b] that is a
    [*keyIndex]. *)
Definition Less (a b : keyIndex) : bool :=
  bytes.Compare (key a) (key b) =? -1.

(** The loop of [equal] over the generations. *)
Fixpoint equal_loop (ga gb : list generation) (i n : nat) : bool :=
  match n with
  | O => true
  | S n' =>
      match ga !! i, gb !! i with
      | Some ag, Some bg =>
          if negb (Gen.equal ag bg) then false
          else equal_loop ga gb (S i) n'
      | _, _ => false
      end
  end.

(** [func (a *keyIndex) equal(b *keyIndex) bool] *)
Definition equal (a b : keyIndex) : bool :=
  if negb (bytes.Equal (key a) (key b)) then false
  else if negb (rev a =? rev b) then false
  else if negb (Z.of_nat (length (generations a)) =? Z.of_nat (length (generations b)))
       then false
  else equal_loop (generations a) (generations b) 0 (length (generations a)).

End KI.

(** ** Sequences of writes *)

(** A key with no history yet: the zero [keyIndex] carrying its key. *)
Definition fresh (k : list byte) : keyIndex := KeyIndex k 0 [].

Inductive op : Type :=
| Put (rev0 subrev : Z)
| Tombstone (rev0 subrev : Z).

Definition op_main (o : op) : Z :=
  match o with Put r _ => r | Tombstone r _ => r end.

Definition apply_op (o : op) : M keyIndex unit :=
  match o with
  | Put r s => KI.put r s
  | Tombstone r s => KI.tombstone r s
  end.

Fixpoint run (ops : list op) : M keyIndex unit :=
  match ops with
  | [] => ret tt
  | o :: ops' => apply_op o ;; run ops'
  end.

(** The example of the package documentation:
    put(1.0); put(2.0); tombstone(3.0); put(4.0); tombstone(5.0) on "foo". *)
Definition foo : list byte := [x66; x6f; x6f]%byte.

Definition scenario_ops : list op :=
  [Put 1 0; Put 2 0; Tombstone 3 0; Put 4 0; Tombstone 5 0].

Definition scenario : keyIndex := final (run scenario_ops (fresh foo)).


(** ** Vocabulary of the specification *)

(** A revision is visible at [atRev] when its [main] does not exceed it. *)
Definition visible (atRev : Z) (r : reversion) : bool := main r <=? atRev.

(** A generation qualifies at [atRev] when it is not empty and its earliest
    revision is visible. *)
Definition qualifies (atRev : Z) (g : generation) : bool :=
  match revs g with
  | [] => false
  | r0 :: _ => main r0 <=? atRev
  end.

(** [i] is the generation active at [atRev]: the newest one that qualifies. *)
Definition is_active (atRev : Z) (gens : list generation) (i : nat) (g : generation)
  : Prop :=
  gens !! i = Some g /\ qualifies atRev g = true /\
  forall j h, (i < j)%nat -> gens !! j = Some h -> qualifies atRev h = false.

(** [b], at position [n], is the boundary of [rs]: the newest visible
    revision. *)
Definition is_boundary (atRev : Z) (rs : list reversion) (n : nat) (b : reversion)
  : Prop :=
  rs !! n = Some b /\ main b <= atRev /\
  forall m r, (n < m)%nat -> rs !! m = Some r -> atRev < main r.

(** Position of the newest visible revision among the first [k] ones. *)
Fixpoint newest_visible (atRev : Z) (rs : list reversion) (k : nat) : option nat :=
  match k with
  | O => None
  | S k' =>
      match rs !! k' with
      | Some r => if visible atRev r then Some k' else newest_visible atRev rs k'
      | None => None
      end
  end.

(** The [int] that [walk] returns for a position. *)
Definition walk_index (o : option nat) : Z :=
  match o with Some n => Z.of_nat n | None => -1 end.

(** What a call returned, when it returned. *)
Definition value {St A} (r : result St A) : option A :=
  match r with Done a _ => Some a | Panicked _ => None end.

Definition not_found : reversion * option error :=
  (zero_reversion, Some ErrReversionNotFound).

(** [get] as the specification words it: scan the generations from the
    newest to the oldest for the first one that qualifies, then its
    revisions from the newest to the oldest for the first visible one. *)
Definition get_spec (ki : keyIndex) (atRev : Z) : reversion * option error :=
  match find (qualifies atRev) (reverse (generations ki)) with
  | None => not_found
  | Some g =>
      match find (visible atRev) (reverse (revs g)) with
      | Some r => (r, None)
      | None => not_found
      end
  end.

(** The largest [main] of a non-empty feed of writes. *)
Definition max_main (o : op) (ops : list op) : Z :=
  foldl (fun m o' => Z.max m (op_main o')) (op_main o) ops.

(** Each write of the feed carries a [main] that is at least the latest
    revision at the time it is applied, [cur] being the latest so far. *)
Fixpoint monotone_feed (cur : Z) (ops : list op) : Prop :=
  match ops with
  | [] => True
  | o :: ops' => cur <= op_main o /\ monotone_feed (op_main o) ops'
  end.

(** The revision a generation with revisions [rs] shows at [atRev]. *)
Definition read (atRev : Z) (rs : list reversion) : option reversion :=
  newest_visible atRev rs (length rs) ≫= (rs !!.).

(** The pair [get] returns for it. *)
Definition answer (o : option reversion) : reversion * option error :=
  match o with Some b => (b, None) | None => not_found end.

(** [compact(atRev)] reaches a tombstone: the generation active at [atRev]
    is not the last one and its last revision is visible at [atRev]. *)
Definition drops_tombstone (ki : keyIndex) (atRev : Z) : bool :=
  match KI.findGeneration ki atRev with
  | None => false
  | Some i =>
      match generations ki !! i with
      | None => false
      | Some g =>
          negb (i =? length (generations ki) - 1)%nat
          && match last (revs g) with
             | Some b => visible atRev b
             | None => false
             end
      end
  end.

(** The example index after compact(2), compact(4) and compact(5), each
    call adding to the same [available] map. *)
Definition after_compactions : keyIndex * gset reversion :=
  final (KI.compact 5 (final (KI.compact 4 (final (KI.compact 2 (scenario, ∅)))))).

(** The index they leave. *)
Definition compacted : keyIndex := fst after_compactions.

(** The oldest generation of the example. *)
Definition first_generation : generation :=
  Generation 3 [Reversion 1 0; Reversion 2 0; Reversion 3 0].

(** What tombstone(6,0) makes of a key with no history. *)
Definition deleted_at_6 : keyIndex :=
  KeyIndex foo 6 [Generation 1 [Reversion 6 0]; zero_generation].

(** An index whose only generation is empty. *)
Definition hollow : keyIndex := KeyIndex foo 5 [zero_generation].

(** ** The history of a key *)

(** Every revision the index holds, oldest first. *)
Definition history (ki : keyIndex) : list reversion :=
  concat (map revs (generations ki)).

(** The revision a write records. *)
Definition op_rev (o : op) : reversion :=
  match o with
  | Put r s => Reversion r s
  | Tombstone r s => Reversion r s
  end.

Definition main_le (a b : reversion) : Prop := main a <= main b.

(** The history is in ascending order of [main] and nothing in it is
    beyond the latest revision. *)
Definition ordered (ki : keyIndex) : Prop :=
  StronglySorted main_le (history ki) /\
  Forall (fun r => main r <= rev ki) (history ki).

(** Every generation counts its revisions in [ver]. *)
Definition counted (ki : keyIndex) : Prop :=
  Forall (fun g => ver g = wrap64 (Z.of_nat (length (revs g)))) (generations ki).

(** A write the index refuses: its [main] is below the latest revision,
    or it is a tombstone and the index is logically empty. *)
Definition rejected (o : op) (ki : keyIndex) : bool :=
  (op_main o <? rev ki)
  || match o with
     | Put _ _ => false
     | Tombstone _ _ => KI.isEmpty ki
     end.

(** The example index after one more put(6,1). *)
Definition put_6_1 : keyIndex := final (KI.put 6 1 scenario).

(** The second generation of the example. *)
Definition second_generation : generation :=
  Generation 2 [Reversion 4 0; Reversion 5 0].

Example scenario_generations :
  generations scenario =
  [Generation 3 [Reversion 1 0; Reversion 2 0; Reversion 3 0];
   Generation 2 [Reversion 4 0; Reversion 5 0];
   Generation 0 []].
Proof. vm_compute. reflexivity. Qed.

(** ** The loops *)

Section Loops.

Variable atRev : Z.

Lemma newest_visible_Some rs k n :
  newest_visible atRev rs k = Some n ->
  (n < k)%nat /\ exists b, rs !! n = Some b /\ main b <= atRev /\
    forall m r, (n < m < k)%nat -> rs !! m = Some r -> atRev < main r.
Proof.
  induction k as [|k IH]; simpl; [discriminate|].
  destruct (rs !! k) as [r|] eqn:Hk; [|discriminate].
  unfold visible. destruct (Z.leb_spec (main r) atRev) as [Hle|Hgt].
  - intros [= <-]. split; [lia|]. exists r. repeat split; auto. intros; lia.
  - intros Hn. destruct (IH Hn) as (Hlt & b & Hb & Hle & Hnew).
    split; [lia|]. exists b. repeat split; auto.
    intros m r' Hm Hr'. destruct (decide (m = k)) as [->|Hne].
    + rewrite Hk in Hr'. injection Hr' as <-. exact Hgt.
    + apply (Hnew m r'); [lia|exact Hr'].
Qed.

Lemma newest_visible_None rs k :
  (k <= length rs)%nat ->
  newest_visible atRev rs k = None ->
  forall m r, (m < k)%nat -> rs !! m = Some r -> atRev < main r.
Proof.
  induction k as [|k IH]; simpl; intros Hk Hn m r Hm Hr; [lia|].
  destruct (rs !! k) as [r'|] eqn:Hk'.
  - unfold visible in Hn. destruct (Z.leb_spec (main r') atRev); [discriminate|].
    destruct (decide (m = k)) as [->|Hne].
    + rewrite Hk' in Hr. injection Hr as <-. assumption.
    + apply (IH ltac:(lia) Hn m r); [lia|assumption].
  - apply lookup_ge_None in Hk'. lia.
Qed.

(** A position that is visible and has nothing visible above it is the
    one the scan stops at. *)
Lemma newest_visible_intro rs k n b :
  (n < k)%nat -> rs !! n = Some b -> main b <= atRev ->
  (forall m r, (n < m < k)%nat -> rs !! m = Some r -> atRev < main r) ->
  (k <= length rs)%nat ->
  newest_visible atRev rs k = Some n.
Proof.
  induction k as [|k IH]; intros Hn Hb Hle Hnew Hk; [lia|]. simpl.
  destruct (rs !! k) as [r|] eqn:Hk'.
  - destruct (decide (n = k)) as [->|Hne].
    + rewrite Hb in Hk'. injection Hk' as <-.
      unfold visible. destruct (Z.leb_spec (main b) atRev); [reflexivity|lia].
    + unfold visible. destruct (Z.leb_spec (main r) atRev) as [Hv|Hv].
      * specialize (Hnew k r ltac:(lia) Hk'). lia.
      * apply IH; auto; try lia. intros m r' Hm. apply Hnew. lia.
  - apply lookup_ge_None in Hk'. lia.
Qed.

Lemma newest_visible_boundary rs n :
  newest_visible atRev rs (length rs) = Some n ->
  exists b, is_boundary atRev rs n b.
Proof.
  intros H. destruct (newest_visible_Some _ _ _ H) as (Hlt & b & Hb & Hle & Hnew).
  exists b. repeat split; auto. intros m r Hm Hr.
  apply (Hnew m r); [|exact Hr]. apply lookup_lt_Some in Hr. lia.
Qed.

(** [walk] under the closure of [get]. *)
Lemma walk_loop_get rs k (s : keyIndex) :
  (k <= length rs)%nat ->
  Gen.walk_loop (fun r => if main r <=? atRev then ret false else ret true) rs k s
  = Done (walk_index (newest_visible atRev rs k)) s.
Proof.
  induction k as [|k IH]; intros Hk; simpl; [reflexivity|].
  destruct (rs !! k) as [r|] eqn:Hr.
  - unfold bind, visible. destruct (main r <=? atRev); simpl; [reflexivity|].
    apply IH. lia.
  - apply lookup_ge_None in Hr. lia.
Qed.

(** [walk] under the closure of [compact], which records the revision it
    stops at in [available]. *)
Lemma walk_loop_compact rs k (ki : keyIndex) (av : gset reversion) :
  (k <= length rs)%nat ->
  Gen.walk_loop
    (fun r => if main r <=? atRev
              then modify (fun s : keyIndex * gset reversion => (fst s, {[ r ]} ∪ snd s)) ;; ret false
              else ret true) rs k (ki, av)
  = Done (walk_index (newest_visible atRev rs k))
         (ki, match newest_visible atRev rs k ≫= (rs !!.) with
              | Some b => {[ b ]} ∪ av
              | None => av
              end).
Proof.
  induction k as [|k IH]; intros Hk; simpl; [reflexivity|].
  destruct (rs !! k) as [r|] eqn:Hr.
  - unfold bind, visible. destruct (main r <=? atRev); simpl.
    + rewrite Hr. reflexivity.
    + apply IH. lia.
  - apply lookup_ge_None in Hr. lia.
Qed.

Lemma findGeneration_loop_Some gens k i :
  KI.findGeneration_loop gens atRev k = Some i ->
  (i < k)%nat /\ exists g, gens !! i = Some g /\ qualifies atRev g = true /\
    forall j h, (i < j < k)%nat -> gens !! j = Some h -> qualifies atRev h = false.
Proof.
  induction k as [|k IH]; simpl; [discriminate|].
  destruct (gens !! k) as [g|] eqn:Hk; [|discriminate].
  assert (Hrec : KI.findGeneration_loop gens atRev k = Some i ->
                 qualifies atRev g = false ->
                 (i < S k)%nat /\ exists g0, gens !! i = Some g0 /\ qualifies atRev g0 = true /\
                   forall j h, (i < j < S k)%nat -> gens !! j = Some h -> qualifies atRev h = false).
  { intros Hn Hq. destruct (IH Hn) as (Hlt & g0 & Hg0 & Hq0 & Hnew).
    split; [lia|]. exists g0. repeat split; auto.
    intros j h Hj Hh. destruct (decide (j = k)) as [->|Hne].
    - rewrite Hk in Hh. injection Hh as <-. exact Hq.
    - apply (Hnew j h); [lia|exact Hh]. }
  unfold qualifies in *.
  destruct (revs g) as [|r0 rs] eqn:Hrevs; [auto|].
  destruct (main r0 <=? atRev) eqn:Hle; [|auto].
  intros [= <-]. split; [lia|]. exists g. rewrite Hrevs.
  repeat split; auto. intros; lia.
Qed.

Lemma findGeneration_loop_None gens k :
  (k <= length gens)%nat ->
  KI.findGeneration_loop gens atRev k = None ->
  forall j h, (j < k)%nat -> gens !! j = Some h -> qualifies atRev h = false.
Proof.
  induction k as [|k IH]; simpl; intros Hk Hn j h Hj Hh; [lia|].
  destruct (gens !! k) as [g|] eqn:Hk'.
  - assert (Hq : qualifies atRev g = false /\ KI.findGeneration_loop gens atRev k = None).
    { unfold qualifies. destruct (revs g) as [|r0 rs]; [auto|].
      destruct (main r0 <=? atRev); [discriminate|auto]. }
    destruct Hq as [Hq Hn'].
    destruct (decide (j = k)) as [->|Hne].
    + rewrite Hk' in Hh. injection Hh as <-. exact Hq.
    + apply (IH ltac:(lia) Hn' j h); [lia|exact Hh].
  - apply lookup_ge_None in Hk'. lia.
Qed.

Lemma findGeneration_loop_skip gens k :
  (k <= length gens)%nat ->
  (forall j h, (j < k)%nat -> gens !! j = Some h -> qualifies atRev h = false) ->
  KI.findGeneration_loop gens atRev k = None.
Proof.
  induction k as [|k IH]; simpl; intros Hk Hall; [reflexivity|].
  destruct (gens !! k) as [g|] eqn:Hk'.
  - pose proof (Hall k g ltac:(lia) Hk') as Hq. unfold qualifies in Hq.
    destruct (revs g) as [|r0 rs]; [|rewrite Hq]; apply IH; try lia;
      intros j h Hj; apply Hall; lia.
  - reflexivity.
Qed.

Lemma findGeneration_loop_intro gens k i g :
  (i < k)%nat -> (k <= length gens)%nat ->
  gens !! i = Some g -> qualifies atRev g = true ->
  (forall j h, (i < j < k)%nat -> gens !! j = Some h -> qualifies atRev h = false) ->
  KI.findGeneration_loop gens atRev k = Some i.
Proof.
  induction k as [|k IH]; intros Hi Hk Hg Hq Hnew; [lia|]. simpl.
  destruct (gens !! k) as [g'|] eqn:Hk'.
  - destruct (decide (i = k)) as [->|Hne].
    + rewrite Hg in Hk'. injection Hk' as <-. unfold qualifies in Hq.
      destruct (revs g) as [|r0 rs]; [discriminate|]. rewrite Hq. reflexivity.
    + pose proof (Hnew k g' ltac:(lia) Hk') as Hq'. unfold qualifies in Hq'.
      destruct (revs g') as [|r0 rs]; [|rewrite Hq']; apply IH; auto; try lia;
        intros j h Hj; apply Hnew; lia.
  - apply lookup_ge_None in Hk'. lia.
Qed.

Lemma findGeneration_active ki i :
  KI.findGeneration ki atRev = Some i ->
  exists g, is_active atRev (generations ki) i g.
Proof.
  intros H. destruct (findGeneration_loop_Some _ _ _ H) as (Hlt & g & Hg & Hq & Hnew).
  exists g. repeat split; auto. intros j h Hj Hh.
  apply (Hnew j h); [|exact Hh]. apply lookup_lt_Some in Hh. lia.
Qed.

Lemma active_findGeneration ki i g :
  is_active atRev (generations ki) i g -> KI.findGeneration ki atRev = Some i.
Proof.
  intros (Hg & Hq & Hnew). pose proof (lookup_lt_Some _ _ _ Hg).
  apply (findGeneration_loop_intro _ _ i g); auto.
  intros j h Hj. apply Hnew. lia.
Qed.

End Loops.

Lemma locate_loop_found len g i fuel :
  (i <= g)%nat -> (g < len)%nat -> (g - i < fuel)%nat ->
  KI.locate_loop len g i fuel = g.
Proof.
  revert i. induction fuel as [|fuel IH]; intros i Hi Hg Hf; [lia|]. simpl.
  destruct (Z.leb_spec (Z.of_nat i) (Z.of_nat len - 1)); [|lia].
  destruct (Nat.eqb_spec i g) as [->|Hne]; [reflexivity|].
  apply IH; lia.
Qed.

Lemma locate_found gens g :
  (g < length gens)%nat -> KI.locate gens g = g.
Proof. intros H. apply locate_loop_found; lia. Qed.

(** ** What [compact] and [get] compute *)

Lemma qualifies_has_boundary atRev g :
  qualifies atRev g = true ->
  exists n b, newest_visible atRev (revs g) (length (revs g)) = Some n /\
              revs g !! n = Some b.
Proof.
  intros Hq. destruct (newest_visible atRev (revs g) (length (revs g))) as [n|] eqn:Hn.
  - destruct (newest_visible_Some _ _ _ _ Hn) as (_ & b & Hb & _). eauto.
  - exfalso. unfold qualifies in Hq. destruct (revs g) as [|r0 rs] eqn:Hr; [discriminate|].
    pose proof (newest_visible_None atRev (r0 :: rs) _ (le_n _) Hn 0%nat r0) as H.
    simpl in H. specialize (H ltac:(lia) eq_refl). apply Z.leb_le in Hq. lia.
Qed.

Lemma compact_found atRev ki av i g n b :
  KI.isEmpty ki = false ->
  KI.findGeneration ki atRev = Some i ->
  generations ki !! i = Some g ->
  newest_visible atRev (revs g) (length (revs g)) = Some n ->
  revs g !! n = Some b ->
  KI.compact atRev (ki, av) =
  Done tt
    (if (length (drop n (revs g)) =? 1)%nat
        && negb (i =? length (generations ki) - 1)%nat
     then (KI.set_generations (drop (S i) (generations ki)) ki,
           ({[ b ]} ∪ av) ∖ {[ b ]})
     else (KI.set_generations
             (Generation (ver g) (drop n (revs g)) :: drop (S i) (generations ki)) ki,
           {[ b ]} ∪ av)).
Proof.
  intros He Hf Hg Hn Hb.
  pose proof (lookup_lt_Some _ _ _ Hg) as Hi.
  pose proof (lookup_lt_Some _ _ _ Hb) as Hnlt.
  unfold KI.compact, bind, getS. simpl. rewrite He, Hf, Hg.
  rewrite locate_found by exact Hi.
  replace (Z.of_nat (length (revs g)) =? 0) with false by (symmetry; apply Z.eqb_neq; lia).
  simpl. unfold Gen.walk. rewrite walk_loop_compact by lia.
  rewrite Hn. simpl. rewrite Hb.
  replace (Z.of_nat n =? -1) with false by (symmetry; apply Z.eqb_neq; lia).
  simpl. unfold modify. simpl.
  rewrite list_lookup_alter, Hg. simpl.
  rewrite decide_True by reflexivity. rewrite Nat2Z.id, length_alter. simpl.
  rewrite lookup_drop, Nat.add_0_r, Hb.
  replace (Z.of_nat (length (drop n (revs g))) =? 1)
    with (length (drop n (revs g)) =? 1)%nat
    by (destruct (Nat.eqb_spec (length (drop n (revs g))) 1);
        symmetry; [apply Z.eqb_eq|apply Z.eqb_neq]; lia).
  replace (Z.of_nat i =? Z.of_nat (length (generations ki)) - 1)
    with (i =? length (generations ki) - 1)%nat
    by (destruct (Nat.eqb_spec i (length (generations ki) - 1));
        symmetry; [apply Z.eqb_eq|apply Z.eqb_neq]; lia).
  destruct ((length (drop n (revs g)) =? 1)%nat
            && negb (i =? length (generations ki) - 1)%nat); simpl.
  - unfold KI.set_generations, KI.update_gen, KI.set_generations. simpl.
    replace (i + 1)%nat with (S i) by lia.
    rewrite drop_alter, decide_False by lia. reflexivity.
  - unfold KI.set_generations, KI.update_gen, KI.set_generations. simpl.
    rewrite (drop_S (alter _ i (generations ki)) (Generation (ver g) (drop n (revs g))) i).
    + rewrite drop_alter, decide_False by lia. reflexivity.
    + rewrite list_lookup_alter, Hg. rewrite decide_True by reflexivity. reflexivity.
Qed.

Lemma compact_none atRev ki av :
  KI.isEmpty ki = false ->
  KI.findGeneration ki atRev = None ->
  KI.compact atRev (ki, av) = Done tt (ki, av).
Proof.
  intros He Hf. unfold KI.compact, bind, getS. simpl. rewrite He, Hf. reflexivity.
Qed.

Lemma compact_empty atRev ki av :
  KI.isEmpty ki = true ->
  KI.compact atRev (ki, av) = Panicked (ki, av).
Proof.
  intros He. unfold KI.compact, bind, getS. simpl. rewrite He. reflexivity.
Qed.


Lemma get_empty atRev ki :
  KI.isEmpty ki = true -> KI.get atRev ki = Panicked ki.
Proof. intros He. unfold KI.get, bind, getS. rewrite He. reflexivity. Qed.

Lemma get_none atRev ki :
  KI.isEmpty ki = false ->
  KI.findGeneration ki atRev = None ->
  KI.get atRev ki = Done not_found ki.
Proof.
  intros He Hf. unfold KI.get, bind, getS. rewrite He, Hf. reflexivity.
Qed.

Lemma get_found atRev ki i g n b :
  KI.isEmpty ki = false ->
  KI.findGeneration ki atRev = Some i ->
  generations ki !! i = Some g ->
  newest_visible atRev (revs g) (length (revs g)) = Some n ->
  revs g !! n = Some b ->
  KI.get atRev ki = Done (b, None) ki.
Proof.
  intros He Hf Hg Hn Hb.
  pose proof (lookup_lt_Some _ _ _ Hb) as Hnlt.
  unfold KI.get, bind, getS. rewrite He, Hf. simpl. rewrite Hg. simpl.
  replace (Z.of_nat (length (revs g)) =? 0) with false by (symmetry; apply Z.eqb_neq; lia).
  unfold Gen.walk. rewrite walk_loop_get by lia. rewrite Hn. simpl.
  replace (Z.of_nat n =? -1) with false by (symmetry; apply Z.eqb_neq; lia).
  simpl. rewrite Nat2Z.id, Hb. reflexivity.
Qed.

Lemma find_newest_visible atRev rs k :
  (k <= length rs)%nat ->
  find (visible atRev) (reverse (take k rs)) = newest_visible atRev rs k ≫= (rs !!.).
Proof.
  induction k as [|k IH]; intros Hk; [reflexivity|]. simpl.
  destruct (rs !! k) as [r|] eqn:Hr.
  - rewrite (take_S_r _ _ _ Hr), reverse_snoc. simpl.
    destruct (visible atRev r); simpl; [congruence|]. apply IH. lia.
  - apply lookup_ge_None in Hr. lia.
Qed.

Lemma find_findGeneration atRev gens k :
  (k <= length gens)%nat ->
  find (qualifies atRev) (reverse (take k gens))
  = KI.findGeneration_loop gens atRev k ≫= (gens !!.).
Proof.
  induction k as [|k IH]; intros Hk; [reflexivity|]. simpl.
  destruct (gens !! k) as [g|] eqn:Hg.
  - rewrite (take_S_r _ _ _ Hg), reverse_snoc. simpl.
    unfold qualifies at 1. destruct (revs g) as [|r0 rs]; [apply IH; lia|].
    destruct (main r0 <=? atRev); simpl; [congruence|]. apply IH; lia.
  - apply lookup_ge_None in Hg. lia.
Qed.


(** ** Active generations and what reads see *)

Lemma qualifies_mono atRev r g :
  atRev <= r -> qualifies atRev g = true -> qualifies r g = true.
Proof.
  unfold qualifies. destruct (revs g) as [|r0 rs]; [auto|].
  intros Hle Hq. apply Z.leb_le in Hq. apply Z.leb_le. lia.
Qed.

Lemma qualifies_nonempty atRev g : qualifies atRev g = true -> revs g <> [].
Proof. unfold qualifies. destruct (revs g); [discriminate|auto]. Qed.

Lemma active_not_empty atRev ki j h :
  is_active atRev (generations ki) j h -> KI.isEmpty ki = false.
Proof.
  intros (Hj & Hq & _). unfold KI.isEmpty.
  destruct (Z.eqb_spec (Z.of_nat (length (generations ki))) 1) as [Hlen|]; [|reflexivity].
  pose proof (lookup_lt_Some _ _ _ Hj) as Hlt.
  assert (j = 0%nat) as -> by lia. rewrite Hj. simpl.
  apply qualifies_nonempty in Hq. apply Z.eqb_neq.
  destruct (revs h); [contradiction|simpl; lia].
Qed.

Lemma get_active r ki j h :
  is_active r (generations ki) j h ->
  KI.get r ki = Done (answer (read r (revs h))) ki.
Proof.
  intros Ha. pose proof (active_not_empty _ _ _ _ Ha) as He.
  pose proof (active_findGeneration _ _ _ _ Ha) as Hf.
  destruct Ha as (Hj & Hq & _).
  destruct (qualifies_has_boundary _ _ Hq) as (n & b & Hn & Hb).
  unfold read. rewrite Hn. simpl. rewrite Hb. simpl.
  eapply get_found; eauto.
Qed.

Lemma read_drop atRev r rs n :
  newest_visible atRev rs (length rs) = Some n ->
  atRev <= r ->
  read r (drop n rs) = read r rs.
Proof.
  intros Hn Hle.
  destruct (newest_visible_Some _ _ _ _ Hn) as (Hlt & b & Hb & Hvb & _).
  destruct (newest_visible r rs (length rs)) as [m|] eqn:Hm.
  - destruct (newest_visible_Some _ _ _ _ Hm) as (Hmlt & c & Hc & Hvc & Hnew).
    assert (Hnm : (n <= m)%nat).
    { destruct (decide (n <= m)%nat) as [|Hgt]; [assumption|].
      specialize (Hnew n b ltac:(lia) Hb). lia. }
    unfold read. rewrite Hm. simpl.
    rewrite (newest_visible_intro r (drop n rs) _ (m - n)%nat c).
    + simpl. rewrite lookup_drop. replace (n + (m - n))%nat with m by lia. congruence.
    + rewrite length_drop. lia.
    + rewrite lookup_drop. replace (n + (m - n))%nat with m by lia. exact Hc.
    + exact Hvc.
    + intros k x Hk Hx. rewrite lookup_drop in Hx. rewrite length_drop in Hk.
      apply (Hnew (n + k)%nat x); [lia|exact Hx].
    + lia.
  - pose proof (newest_visible_None r rs _ (le_n _) Hm n b Hlt Hb). lia.
Qed.

Lemma is_active_drop atRev gens c j h :
  (c <= j)%nat -> is_active atRev gens j h -> is_active atRev (drop c gens) (j - c) h.
Proof.
  intros Hc (Hj & Hq & Hnew). split; [|split]; auto.
  - rewrite lookup_drop. replace (c + (j - c))%nat with j by lia. exact Hj.
  - intros k x Hk Hx. rewrite lookup_drop in Hx. apply (Hnew (c + k)%nat x); [lia|exact Hx].
Qed.

Lemma is_active_cons atRev gens x j h :
  is_active atRev gens j h -> is_active atRev (x :: gens) (S j) h.
Proof.
  intros (Hj & Hq & Hnew). split; [|split]; auto.
  intros k y Hk Hy. destruct k as [|k]; [lia|]. simpl in Hy.
  apply (Hnew k y); [lia|exact Hy].
Qed.

Lemma is_active_head atRev gens x :
  qualifies atRev x = true ->
  (forall k y, gens !! k = Some y -> qualifies atRev y = false) ->
  is_active atRev (x :: gens) 0 x.
Proof.
  intros Hq Hall. split; [|split]; auto.
  intros k y Hk Hy. destruct k as [|k]; [lia|]. simpl in Hy. eauto.
Qed.

Lemma is_active_fun atRev gens i g j h :
  is_active atRev gens i g -> is_active atRev gens j h -> i = j /\ g = h.
Proof.
  intros (Hi & Hqi & Hni) (Hj & Hqj & Hnj).
  assert (i = j) as ->.
  { destruct (lt_eq_lt_dec i j) as [[Hlt|Heq]|Hgt]; [|assumption|].
    - rewrite (Hni j h Hlt Hj) in Hqj. discriminate.
    - rewrite (Hnj i g Hgt Hi) in Hqi. discriminate. }
  split; [reflexivity|congruence].
Qed.

(** Nothing qualifies at [atRev]: neither before nor after. *)
Lemma not_active_drop atRev gens c :
  (forall j h, (c <= j)%nat -> gens !! j = Some h -> qualifies atRev h = false) ->
  forall k y, drop c gens !! k = Some y -> qualifies atRev y = false.
Proof.
  intros Hall k y Hy. rewrite lookup_drop in Hy. apply (Hall (c + k)%nat y); [lia|exact Hy].
Qed.

Lemma drops_tombstone_cond atRev ki i g n :
  KI.findGeneration ki atRev = Some i ->
  generations ki !! i = Some g ->
  newest_visible atRev (revs g) (length (revs g)) = Some n ->
  drops_tombstone ki atRev
  = (length (drop n (revs g)) =? 1)%nat && negb (i =? length (generations ki) - 1)%nat.
Proof.
  intros Hf Hg Hn. unfold drops_tombstone. rewrite Hf, Hg.
  rewrite andb_comm. f_equal.
  destruct (newest_visible_Some _ _ _ _ Hn) as (Hlt & b & Hb & Hvb & Hnew).
  rewrite length_drop.
  destruct (last (revs g)) as [c|] eqn:Hlast.
  - rewrite last_lookup in Hlast.
    destruct (Nat.eqb_spec (length (revs g) - n) 1) as [Heq|Hne].
    + replace (Init.Nat.pred (length (revs g))) with n in Hlast by lia.
      assert (c = b) as -> by congruence. unfold visible. apply Z.leb_le. exact Hvb.
    + unfold visible. apply Z.leb_gt.
      apply (Hnew (Init.Nat.pred (length (revs g))) c); [lia|exact Hlast].
  - apply last_None in Hlast. rewrite Hlast in Hlt. simpl in Hlt. lia.
Qed.

(** ** Compaction and reads *)

Lemma compact_cases atRev ki av i g :
  KI.isEmpty ki = false ->
  KI.findGeneration ki atRev = Some i ->
  generations ki !! i = Some g ->
  exists n b,
    newest_visible atRev (revs g) (length (revs g)) = Some n /\
    revs g !! n = Some b /\
    KI.compact atRev (ki, av) =
    Done tt
      (if drops_tombstone ki atRev
       then (KI.set_generations (drop (S i) (generations ki)) ki,
             ({[ b ]} ∪ av) ∖ {[ b ]})
       else (KI.set_generations
               (Generation (ver g) (drop n (revs g)) :: drop (S i) (generations ki)) ki,
             {[ b ]} ∪ av)).
Proof.
  intros He Hf Hg.
  destruct (findGeneration_active _ _ _ Hf) as (g' & Hg' & Hq & _).
  assert (g' = g) as -> by congruence.
  destruct (qualifies_has_boundary _ _ Hq) as (n & b & Hn & Hb).
  exists n, b. split; [exact Hn|]. split; [exact Hb|].
  rewrite (drops_tombstone_cond _ _ _ _ _ Hf Hg Hn).
  apply compact_found; assumption.
Qed.

Lemma active_later atRev r gens i g :
  is_active atRev gens i g -> atRev <= r ->
  exists j h, is_active r gens j h /\ (i <= j)%nat.
Proof.
  intros (Hi & Hq & _) Hle. pose proof (qualifies_mono _ _ _ Hle Hq) as Hqr.
  pose proof (lookup_lt_Some _ _ _ Hi) as Hlt.
  destruct (KI.findGeneration_loop gens r (length gens)) as [j|] eqn:Hf.
  - destruct (findGeneration_loop_Some _ _ _ _ Hf) as (Hj & h & Hh & Hqh & Hnew).
    exists j, h. split.
    + repeat split; auto. intros k x Hk Hx. apply (Hnew k x); [|exact Hx].
      apply lookup_lt_Some in Hx. lia.
    + destruct (decide (i <= j)%nat) as [|Hgt]; [assumption|].
      rewrite (Hnew i g ltac:(lia) Hi) in Hqr. discriminate.
  - rewrite (findGeneration_loop_None _ _ _ (le_n _) Hf i g Hlt Hi) in Hqr. discriminate.
Qed.

Lemma qualifies_trimmed atRev g n b :
  revs g !! n = Some b -> main b <= atRev ->
  qualifies atRev (Generation (ver g) (drop n (revs g))) = true.
Proof.
  intros Hb Hle. unfold qualifies. simpl.
  rewrite (drop_S _ _ _ Hb). apply Z.leb_le. exact Hle.
Qed.

(** Reads at or above [atRev] survive [compact(atRev)], unless the
    generation that serves them is the one compaction drops. *)
Lemma compact_keeps_get ki av atRev r :
  atRev <= r ->
  (drops_tombstone ki atRev = true ->
   KI.findGeneration ki r <> KI.findGeneration ki atRev) ->
  value (KI.get r (fst (final (KI.compact atRev (ki, av))))) = value (KI.get r ki).
Proof.
  intros Hle Hserved.
  destruct (KI.isEmpty ki) eqn:He; [rewrite compact_empty by exact He; reflexivity|].
  destruct (KI.findGeneration ki atRev) as [i|] eqn:Hf;
    [|rewrite compact_none by assumption; reflexivity].
  destruct (findGeneration_active _ _ _ Hf) as (g & Ha).
  destruct (compact_cases atRev ki av i g He Hf (proj1 Ha)) as (n & b & Hn & Hb & ->).
  destruct (active_later _ r _ _ _ Ha Hle) as (j & h & Hr & Hij).
  rewrite (get_active r ki j h Hr).
  destruct (newest_visible_Some _ _ _ _ Hn) as (_ & b' & Hb' & Hvb & _).
  assert (b' = b) as -> by congruence.
  destruct (drops_tombstone ki atRev) eqn:Hd; simpl.
  - assert (i <> j) as Hne.
    { intros ->. apply (Hserved eq_refl). apply (active_findGeneration r ki j h Hr). }
    rewrite (get_active r (KI.set_generations (drop (S i) (generations ki)) ki)
               (j - S i) h); [reflexivity|].
    simpl. apply is_active_drop; [lia|exact Hr].
  - destruct (decide (i = j)) as [<-|Hne].
    + assert (h = g) as -> by (destruct Ha as [Hg _], Hr as [Hh _]; congruence).
      rewrite (get_active r (KI.set_generations
                 (Generation (ver g) (drop n (revs g)) :: drop (S i) (generations ki)) ki)
                 0 (Generation (ver g) (drop n (revs g)))).
      * simpl. rewrite (read_drop atRev r _ n Hn Hle). reflexivity.
      * simpl. apply is_active_head.
        -- apply (qualifies_trimmed r g n b Hb). lia.
        -- apply not_active_drop. intros k x Hk. apply (proj2 (proj2 Hr)). lia.
    + rewrite (get_active r (KI.set_generations
                 (Generation (ver g) (drop n (revs g)) :: drop (S i) (generations ki)) ki)
                 (S (j - S i)) h); [reflexivity|].
      simpl. apply is_active_cons, is_active_drop; [lia|exact Hr].
Qed.


(** ** Writes *)

Lemma put_eq rev0 subrev ki :
  KI.put rev0 subrev ki =
  if rev0 <? rev ki then Panicked ki
  else
    let gens := if Z.of_nat (length (generations ki)) =? 0
                then generations ki ++ [zero_generation] else generations ki in
    Done tt (KeyIndex (key ki) rev0
               (alter (fun g => Generation (wrap64 (ver g + 1))
                                           (revs g ++ [Reversion rev0 subrev]))
                      (length gens - 1)%nat gens)).
Proof.
  unfold KI.put, bind, getS. destruct (rev0 <? rev ki); [reflexivity|].
  destruct (Z.of_nat (length (generations ki)) =? 0); simpl;
    unfold KI.update_gen, KI.set_generations, KI.set_rev; simpl;
    rewrite list_alter_alter_eq; reflexivity.
Qed.

Lemma tombstone_eq rev0 subrev ki :
  KI.tombstone rev0 subrev ki =
  if KI.isEmpty ki then Panicked ki
  else match KI.put rev0 subrev ki with
       | Done _ ki' =>
           Done tt (KI.set_generations (generations ki' ++ [zero_generation]) ki')
       | Panicked ki' => Panicked ki'
       end.
Proof.
  unfold KI.tombstone, bind, getS. destruct (KI.isEmpty ki); [reflexivity|].
  destruct (KI.put rev0 subrev ki); reflexivity.
Qed.

(** What a successful [put] leaves behind. *)
Lemma put_done rev0 subrev ki ki' :
  KI.put rev0 subrev ki = Done tt ki' ->
  rev ki <= rev0 /\ rev ki' = rev0 /\ key ki' = key ki /\
  exists g, last (generations ki') = Some g /\ (1 <= length (revs g))%nat.
Proof.
  rewrite put_eq. destruct (Z.ltb_spec rev0 (rev ki)); [discriminate|].
  intros [= <-]. simpl. repeat split; auto.
  set (gens := if Z.of_nat (length (generations ki)) =? 0
               then generations ki ++ [zero_generation] else generations ki).
  assert (Hlen : (0 < length gens)%nat).
  { subst gens. destruct (Z.eqb_spec (Z.of_nat (length (generations ki))) 0).
    - rewrite length_app. simpl. lia.
    - lia. }
  destruct (gens !! (length gens - 1)%nat) as [g|] eqn:Hg.
  - exists (Generation (wrap64 (ver g + 1)) (revs g ++ [Reversion rev0 subrev])).
    split.
    + rewrite last_lookup, length_alter.
      replace (Init.Nat.pred (length gens)) with (length gens - 1)%nat by lia.
      rewrite list_lookup_alter_eq, Hg. reflexivity.
    + simpl. rewrite length_app. simpl. lia.
  - apply lookup_ge_None in Hg. lia.
Qed.

Lemma put_total rev0 subrev ki :
  rev ki <= rev0 -> exists ki', KI.put rev0 subrev ki = Done tt ki'.
Proof.
  intros Hle. rewrite put_eq. destruct (Z.ltb_spec rev0 (rev ki)); [lia|]. eauto.
Qed.

Lemma tombstone_done rev0 subrev ki ki' :
  KI.tombstone rev0 subrev ki = Done tt ki' ->
  rev ki <= rev0 /\ rev ki' = rev0 /\ key ki' = key ki /\
  (2 <= length (generations ki'))%nat.
Proof.
  rewrite tombstone_eq. destruct (KI.isEmpty ki); [discriminate|].
  destruct (KI.put rev0 subrev ki) as [[] ki1|] eqn:Hput; [|discriminate].
  intros [= <-]. destruct (put_done _ _ _ _ Hput) as (Hle & Hrev & Hkey & g & Hg & _).
  simpl. repeat split; auto. rewrite length_app. simpl.
  destruct (generations ki1); [discriminate|simpl; lia].
Qed.

Lemma tombstone_total rev0 subrev ki :
  KI.isEmpty ki = false -> rev ki <= rev0 ->
  exists ki', KI.tombstone rev0 subrev ki = Done tt ki'.
Proof.
  intros He Hle. rewrite tombstone_eq, He.
  destruct (put_total rev0 subrev ki Hle) as [ki1 ->]. eauto.
Qed.

Lemma last_nonempty_not_empty ki g :
  last (generations ki) = Some g -> (1 <= length (revs g))%nat ->
  KI.isEmpty ki = false.
Proof.
  intros Hlast Hg. unfold KI.isEmpty.
  destruct (Z.eqb_spec (Z.of_nat (length (generations ki))) 1) as [Hlen|]; [|reflexivity].
  rewrite last_lookup in Hlast.
  replace (Init.Nat.pred (length (generations ki))) with 0%nat in Hlast by lia.
  rewrite Hlast. simpl. apply Z.eqb_neq. lia.
Qed.

Lemma two_generations_not_empty ki :
  (2 <= length (generations ki))%nat -> KI.isEmpty ki = false.
Proof.
  intros Hlen. unfold KI.isEmpty.
  destruct (Z.eqb_spec (Z.of_nat (length (generations ki))) 1); [lia|reflexivity].
Qed.

Lemma apply_op_done o ki ki' :
  apply_op o ki = Done tt ki' ->
  rev ki <= op_main o /\ rev ki' = op_main o /\ key ki' = key ki /\
  KI.isEmpty ki' = false.
Proof.
  destruct o as [r s|r s]; simpl; intros H.
  - destruct (put_done _ _ _ _ H) as (? & ? & ? & g & Hg & Hlen).
    repeat split; auto. eapply last_nonempty_not_empty; eauto.
  - destruct (tombstone_done _ _ _ _ H) as (? & ? & ? & Hlen).
    repeat split; auto. apply two_generations_not_empty; assumption.
Qed.

Lemma apply_op_total o ki :
  KI.isEmpty ki = false -> rev ki <= op_main o ->
  exists ki', apply_op o ki = Done tt ki'.
Proof.
  destruct o; simpl; intros He Hle;
    [apply put_total|apply tombstone_total]; assumption.
Qed.

Lemma run_cons o ops ki :
  run (o :: ops) ki =
  match apply_op o ki with
  | Done _ ki1 => run ops ki1
  | Panicked ki1 => Panicked ki1
  end.
Proof. reflexivity. Qed.

Lemma run_total ops ki :
  KI.isEmpty ki = false -> monotone_feed (rev ki) ops ->
  exists ki', run ops ki = Done tt ki'.
Proof.
  revert ki. induction ops as [|o ops IH]; intros ki He Hfeed.
  - exists ki. reflexivity.
  - destruct Hfeed as [Hle Hfeed]. rewrite run_cons.
    destruct (apply_op_total o ki He Hle) as [ki1 H1]. rewrite H1.
    destruct (apply_op_done _ _ _ H1) as (_ & Hrev & _ & He1).
    apply IH; [exact He1|]. rewrite Hrev. exact Hfeed.
Qed.

Lemma run_not_empty ops ki ki' :
  KI.isEmpty ki = false -> run ops ki = Done tt ki' -> KI.isEmpty ki' = false.
Proof.
  revert ki. induction ops as [|o ops IH]; intros ki He.
  - intros [= <-]. exact He.
  - rewrite run_cons. destruct (apply_op o ki) as [[] ki1|] eqn:H1; [|discriminate].
    apply IH. apply (apply_op_done _ _ _ H1).
Qed.

Lemma run_latest o ops ki ki' :
  run (o :: ops) ki = Done tt ki' -> rev ki' = max_main o ops.
Proof.
  revert o ki. induction ops as [|o' ops IH]; intros o ki; rewrite run_cons;
    destruct (apply_op o ki) as [[] ki1|] eqn:H1; try discriminate;
    destruct (apply_op_done _ _ _ H1) as (_ & Hrev & _).
  - intros [= <-]. exact Hrev.
  - intros Hrun. rewrite (IH _ _ Hrun). unfold max_main. simpl.
    rewrite run_cons in Hrun.
    destruct (apply_op o' ki1) as [[] ki2|] eqn:H2; [|discriminate].
    destruct (apply_op_done _ _ _ H2) as (Hle & _).
    rewrite Z.max_r by lia. reflexivity.
Qed.

Lemma fresh_not_empty k : KI.isEmpty (fresh k) = false.
Proof. reflexivity. Qed.

(** [max_main] is the maximum of the supplied [main]s. *)
Lemma max_main_upper o ops :
  forall o', o' ∈ o :: ops -> op_main o' <= max_main o ops.
Proof.
  unfold max_main.
  assert (Hmono : forall l m, m <= foldl (fun m o' => Z.max m (op_main o')) m l).
  { induction l as [|x l IH]; intros m; simpl; [lia|].
    specialize (IH (Z.max m (op_main x))). lia. }
  assert (Hin : forall l m o', o' ∈ l ->
            op_main o' <= foldl (fun m o' => Z.max m (op_main o')) m l).
  { induction l as [|x l IH]; intros m o' Ho'.
    - apply elem_of_nil in Ho'. contradiction.
    - apply elem_of_cons in Ho' as [->|Ho']; simpl.
      + specialize (Hmono l (Z.max m (op_main x))). lia.
      + apply IH. exact Ho'. }
  intros o' Ho'. apply elem_of_cons in Ho' as [->|Ho'].
  - apply Hmono.
  - apply Hin. exact Ho'.
Qed.

Lemma max_main_attained o ops :
  exists o', o' ∈ o :: ops /\ op_main o' = max_main o ops.
Proof.
  unfold max_main. revert o. induction ops as [|x ops IH]; intros o.
  - exists o. split; [apply elem_of_cons; auto|reflexivity].
  - simpl. destruct (Z.max_spec (op_main o) (op_main x)) as [[_ ->]|[_ ->]].
    + destruct (IH x) as (o' & Ho' & <-). exists o'. split; [|reflexivity].
      apply elem_of_cons. auto.
    + destruct (IH o) as (o' & Ho' & <-). exists o'. split; [|reflexivity].
      apply elem_of_cons in Ho' as [->|Ho']; rewrite !elem_of_cons; auto.
Qed.

(** ** The properties of the specification *)

(** C1 (as the code has it): on the index built by put(1,0), put(2,0),
    tombstone(3,0), put(4,0), tombstone(5,0), get(2) returns {2,0}, get(3)
    returns {3,0}, and get(6) returns the tombstone {5,0} of the generation
    {4,5}: the empty current generation is skipped and the closed one
    before it qualifies. *)
Theorem scenario_reads :
  KI.get 2 scenario = Done (Reversion 2 0, None) scenario /\
  KI.get 3 scenario = Done (Reversion 3 0, None) scenario /\
  KI.get 6 scenario = Done (Reversion 5 0, None) scenario.
Proof. repeat split; vm_compute; reflexivity. Qed.

(** C1 as stated fails: get(6) is not NotFound. *)
Lemma scenario_get_6_is_found :
  ~ (value (KI.get 2 scenario) = Some (Reversion 2 0, None) /\
     value (KI.get 3 scenario) = Some (Reversion 3 0, None) /\
     value (KI.get 6 scenario) = Some not_found).
Proof. intros (_ & _ & H). vm_compute in H. discriminate H. Qed.

(** C2: when [compact(atRev, available)] runs on a non-empty index and
    finds a non-empty generation [g] at position [i], the newest revision
    [b] of [g] with [main <= atRev] is added to [available] and [g] keeps
    [b] and everything newer; if that leaves [g] with one revision and [g]
    is not the last generation, [b] is removed from [available] again and
    [g] goes with all older generations; otherwise the trimmed [g] becomes
    the oldest generation. *)
Theorem compact_trims_at_boundary (ki : keyIndex) (av : gset reversion)
        (atRev : Z) (i : nat) (g : generation) :
  KI.isEmpty ki = false ->
  KI.findGeneration ki atRev = Some i ->
  generations ki !! i = Some g ->
  revs g <> [] ->
  exists n b,
    is_boundary atRev (revs g) n b /\
    KI.compact atRev (ki, av) =
    Done tt
      (if (length (drop n (revs g)) =? 1)%nat
          && negb (i =? length (generations ki) - 1)%nat
       then (KI.set_generations (drop (S i) (generations ki)) ki,
             ({[ b ]} ∪ av) ∖ {[ b ]})
       else (KI.set_generations
               (Generation (ver g) (drop n (revs g)) :: drop (S i) (generations ki)) ki,
             {[ b ]} ∪ av)).
Proof.
  intros He Hf Hg _.
  destruct (compact_cases atRev ki av i g He Hf Hg) as (n & b & Hn & Hb & Hc).
  exists n, b. split.
  - destruct (newest_visible_boundary _ _ _ Hn) as (b' & Hb').
    assert (b' = b) as -> by (destruct Hb' as [Hb' _]; congruence). exact Hb'.
  - rewrite Hc, (drops_tombstone_cond _ _ _ _ _ Hf Hg Hn). reflexivity.
Qed.

Lemma compact_trims_at_boundary_witness :
  KI.isEmpty scenario = false /\
  KI.findGeneration scenario 2 = Some 0%nat /\
  generations scenario !! 0%nat = Some first_generation /\
  revs first_generation <> [] /\
  exists n b,
    is_boundary 2 (revs first_generation) n b /\
    KI.compact 2 (scenario, ∅) =
    Done tt
      (if (length (drop n (revs first_generation)) =? 1)%nat
          && negb (0 =? length (generations scenario) - 1)%nat
       then (KI.set_generations (drop 1 (generations scenario)) scenario,
             ({[ b ]} ∪ ∅) ∖ {[ b ]})
       else (KI.set_generations
               (Generation (ver first_generation) (drop n (revs first_generation))
                :: drop 1 (generations scenario))
               scenario,
             {[ b ]} ∪ ∅)).
Proof.
  assert (He : KI.isEmpty scenario = false) by reflexivity.
  assert (Hf : KI.findGeneration scenario 2 = Some 0%nat) by reflexivity.
  assert (Hg : generations scenario !! 0%nat = Some first_generation) by reflexivity.
  assert (Hr : revs first_generation <> []) by discriminate.
  repeat (split; [assumption|]).
  exact (compact_trims_at_boundary scenario ∅ 2 0 first_generation He Hf Hg Hr).
Defined.

(** C3 (as the code has it): on an index built by puts and tombstones,
    [get(r)] for [r >= atRev] returns after [compact(atRev, available)]
    what it returned before, provided compaction does not drop the
    generation that serves [r]: that is, unless the generation active at
    [atRev] is also the one active at [r], is not the last generation, and
    has its last revision (its tombstone) at or below [atRev]. *)
Theorem compact_preserves_reads (k : list byte) (ops : list op) (ki : keyIndex)
        (atRev : Z) (av : gset reversion) (r : Z) :
  run ops (fresh k) = Done tt ki ->
  atRev <= r ->
  (drops_tombstone ki atRev = true ->
   KI.findGeneration ki r <> KI.findGeneration ki atRev) ->
  value (KI.get r (fst (final (KI.compact atRev (ki, av))))) = value (KI.get r ki).
Proof. intros _. apply compact_keeps_get. Qed.

Lemma compact_preserves_reads_witness :
  run scenario_ops (fresh foo) = Done tt scenario /\
  3 <= 4 /\
  (drops_tombstone scenario 3 = true ->
   KI.findGeneration scenario 4 <> KI.findGeneration scenario 3) /\
  value (KI.get 4 (fst (final (KI.compact 3 (scenario, ∅)))))
  = value (KI.get 4 scenario).
Proof.
  assert (Hrun : run scenario_ops (fresh foo) = Done tt scenario) by reflexivity.
  assert (Hle : 3 <= 4) by lia.
  assert (Hs : drops_tombstone scenario 3 = true ->
               KI.findGeneration scenario 4 <> KI.findGeneration scenario 3)
    by (intros _; vm_compute; discriminate).
  repeat (split; [assumption|]).
  exact (compact_preserves_reads foo scenario_ops scenario 3 ∅ 4 Hrun Hle Hs).
Defined.

(** C3 as stated fails: compact(3) drops the generation {1,2,3} together
    with its tombstone, and get(3) turns from {3,0} into NotFound. *)
Lemma compact_loses_tombstone_read :
  ~ (forall (ops : list op) (ki : keyIndex) (atRev : Z) (av : gset reversion) (r : Z),
       run ops (fresh foo) = Done tt ki ->
       atRev <= r ->
       value (KI.get r (fst (final (KI.compact atRev (ki, av)))))
       = value (KI.get r ki)).
Proof.
  intros H.
  specialize (H scenario_ops scenario 3 ∅ 3 eq_refl ltac:(lia)).
  vm_compute in H. discriminate H.
Qed.

(** C4: once compact(2), compact(4), compact(5) have left the example index
    with the single empty generation, compact(6) modifies nothing: the
    [isEmpty] guard stops the call (with a panic) before any write, so the
    generation list is still [{}] and [isEmpty()] still holds. *)
Theorem scenario_compact_6_no_change (av : gset reversion) :
  generations compacted = [zero_generation] /\
  KI.isEmpty compacted = true /\
  KI.compact 6 (compacted, av) = Panicked (compacted, av) /\
  generations (fst (final (KI.compact 6 (compacted, av)))) = [zero_generation] /\
  KI.isEmpty (fst (final (KI.compact 6 (compacted, av)))) = true.
Proof.
  assert (Hg : generations compacted = [zero_generation]) by (vm_compute; reflexivity).
  assert (He : KI.isEmpty compacted = true) by (vm_compute; reflexivity).
  rewrite (compact_empty 6 compacted av He). simpl. auto.
Qed.

(** C5 (as the code has it): on an index whose only generation is empty,
    [tombstone] and [get] panic at once and leave the index as it was.  (An
    index with no generation at all is not what [isEmpty] tests for.) *)
Theorem empty_index_panics (ki : keyIndex) (g : generation)
        (rev0 subrev atRev : Z) :
  generations ki = [g] ->
  revs g = [] ->
  KI.tombstone rev0 subrev ki = Panicked ki /\
  KI.get atRev ki = Panicked ki.
Proof.
  intros Hgens Hrevs.
  assert (He : KI.isEmpty ki = true).
  { unfold KI.isEmpty. rewrite Hgens. simpl. rewrite Hrevs. reflexivity. }
  split.
  - rewrite tombstone_eq, He. reflexivity.
  - apply get_empty. exact He.
Qed.

Lemma empty_index_panics_witness :
  generations hollow = [zero_generation] /\
  revs zero_generation = [] /\
  KI.tombstone 6 0 hollow = Panicked hollow /\
  KI.get 6 hollow = Panicked hollow.
Proof.
  assert (Hg : generations hollow = [zero_generation]) by reflexivity.
  assert (Hr : revs zero_generation = []) by reflexivity.
  repeat (split; [assumption|]).
  exact (empty_index_panics hollow zero_generation 6 0 6 Hg Hr).
Defined.

(** C5 as stated fails: with no generation at all, [tombstone] goes through
    (it writes the revision and opens an empty generation) and [get]
    returns NotFound; neither panics. *)
Lemma no_generations_not_guarded :
  ~ (forall ki : keyIndex,
       (generations ki = [] \/ exists g, generations ki = [g] /\ revs g = []) ->
       forall rev0 subrev atRev,
         panicked (KI.tombstone rev0 subrev ki) = true /\
         panicked (KI.get atRev ki) = true).
Proof.
  intros H.
  destruct (H (fresh foo) (or_introl eq_refl) 1 0 1) as [Ht _].
  vm_compute in Ht. discriminate Ht.
Qed.

(** C6: on a non-empty index [get(atRev)] takes the first generation, from
    the newest to the oldest and skipping empty ones, whose earliest
    revision has [main <= atRev], and returns its newest revision with
    [main <= atRev]; when no generation qualifies it returns NotFound. *)
Theorem get_refines_spec (ki : keyIndex) (atRev : Z) :
  KI.isEmpty ki = false ->
  KI.get atRev ki = Done (get_spec ki atRev) ki.
Proof.
  intros He. unfold get_spec.
  rewrite <- (take_ge (generations ki) (length (generations ki))) at 1 by lia.
  rewrite find_findGeneration by lia. fold (KI.findGeneration ki atRev).
  destruct (KI.findGeneration ki atRev) as [i|] eqn:Hf; simpl.
  - destruct (findGeneration_active _ _ _ Hf) as (g & Hg & Hq & _).
    destruct (qualifies_has_boundary _ _ Hq) as (n & b & Hn & Hb).
    rewrite Hg. rewrite <- (take_ge (revs g) (length (revs g))) at 1 by lia.
    rewrite find_newest_visible by lia. rewrite Hn. simpl. rewrite Hb.
    eapply get_found; eauto.
  - apply get_none; assumption.
Qed.

Lemma get_refines_spec_witness :
  KI.isEmpty scenario = false /\
  KI.get 6 scenario = Done (get_spec scenario 6) scenario.
Proof.
  assert (He : KI.isEmpty scenario = false) by reflexivity.
  split; [assumption|].
  exact (get_refines_spec scenario 6 He).
Defined.

(** C7: running [compact(atRev, available)] a second time leaves the index
    (and the [available] map) as the first run left them. *)
Theorem compact_idempotent (ki : keyIndex) (av : gset reversion) (atRev : Z) :
  final (KI.compact atRev (final (KI.compact atRev (ki, av))))
  = final (KI.compact atRev (ki, av)).
Proof.
  destruct (KI.isEmpty ki) eqn:He.
  { rewrite compact_empty by exact He. simpl. rewrite compact_empty by exact He. reflexivity. }
  destruct (KI.findGeneration ki atRev) as [i|] eqn:Hf.
  2:{ rewrite compact_none by assumption. simpl. rewrite compact_none by assumption. reflexivity. }
  destruct (findGeneration_active _ _ _ Hf) as (g & Ha).
  destruct (compact_cases atRev ki av i g He Hf (proj1 Ha)) as (n & b & Hn & Hb & ->).
  destruct (newest_visible_Some _ _ _ _ Hn) as (Hnlt & b' & Hb' & Hvb & Hnewer).
  assert (b' = b) as -> by congruence.
  destruct Ha as (Hg & Hq & Hnew).
  destruct (drops_tombstone ki atRev) eqn:Hd; simpl.
  - set (ki' := KI.set_generations (drop (S i) (generations ki)) ki).
    destruct (KI.isEmpty ki') eqn:He'; [rewrite compact_empty by exact He'; reflexivity|].
    rewrite compact_none; [reflexivity|exact He'|].
    unfold KI.findGeneration. apply findGeneration_loop_skip; [lia|].
    intros k x _. subst ki'. simpl. apply not_active_drop.
    intros k' x' Hk'. apply Hnew. lia.
  - set (g' := Generation (ver g) (drop n (revs g))).
    set (ki' := KI.set_generations (g' :: drop (S i) (generations ki)) ki).
    assert (Ha' : is_active atRev (generations ki') 0 g').
    { subst ki'. simpl. apply is_active_head.
      - apply (qualifies_trimmed atRev g n b Hb Hvb).
      - apply not_active_drop. intros k x Hk. apply Hnew. lia. }
    pose proof (active_not_empty _ _ _ _ Ha') as He'.
    pose proof (active_findGeneration _ _ _ _ Ha') as Hf'.
    assert (Hn' : newest_visible atRev (revs g') (length (revs g')) = Some 0%nat).
    { subst g'. simpl. apply (newest_visible_intro atRev _ _ 0%nat b).
      - rewrite length_drop. lia.
      - rewrite lookup_drop, Nat.add_0_r. exact Hb.
      - exact Hvb.
      - intros m x Hm Hx. rewrite lookup_drop in Hx. rewrite length_drop in Hm.
        apply (Hnewer (n + m)%nat x); [lia|exact Hx].
      - lia. }
    assert (Hb0 : revs g' !! 0%nat = Some b).
    { subst g'. simpl. rewrite lookup_drop, Nat.add_0_r. exact Hb. }
    rewrite (compact_found atRev ki' ({[ b ]} ∪ av) 0 g' 0 b He' Hf' (proj1 Ha') Hn' Hb0).
    assert (Hcond : (length (revs g') =? 1)%nat
                    && negb (0 =? length (generations ki') - 1)%nat = false).
    { rewrite <- Hd. rewrite (drops_tombstone_cond _ _ _ _ _ Hf Hg Hn).
      subst ki' g'. unfold KI.set_generations. cbn [generations revs length].
      pose proof (lookup_lt_Some _ _ _ Hg).
      rewrite !length_drop. f_equal. f_equal.
      destruct (Nat.eqb_spec 0 (S (length (generations ki) - S i) - 1)),
               (Nat.eqb_spec i (length (generations ki) - 1)); try reflexivity; lia. }
    rewrite drop_0, Hcond. simpl.
    apply pair_equal_spec. split; [reflexivity|].
    rewrite (assoc_L (∪)), (idemp_L (∪)). reflexivity.
Qed.

(** C8: after a non-empty feed of puts and tombstones, each with a [main]
    at least the latest revision at that time, every write goes through and
    the latest revision of the index is the largest [main] supplied. *)
Theorem latest_revision_is_max (ki : keyIndex) (o : op) (ops : list op) :
  KI.isEmpty ki = false ->
  monotone_feed (rev ki) (o :: ops) ->
  exists ki', run (o :: ops) ki = Done tt ki' /\ rev ki' = max_main o ops.
Proof.
  intros He Hfeed. destruct (run_total (o :: ops) ki He Hfeed) as [ki' Hrun].
  exists ki'. split; [exact Hrun|]. apply (run_latest o ops ki ki' Hrun).
Qed.

Lemma latest_revision_is_max_witness :
  KI.isEmpty (fresh foo) = false /\
  monotone_feed (rev (fresh foo)) scenario_ops /\
  exists ki', run scenario_ops (fresh foo) = Done tt ki' /\
              rev ki' = max_main (Put 1 0) [Put 2 0; Tombstone 3 0; Put 4 0; Tombstone 5 0].
Proof.
  assert (He : KI.isEmpty (fresh foo) = false) by reflexivity.
  assert (Hfeed : monotone_feed (rev (fresh foo)) scenario_ops)
    by (simpl; repeat split; lia).
  repeat (split; [assumption|]).
  exact (latest_revision_is_max (fresh foo) (Put 1 0)
           [Put 2 0; Tombstone 3 0; Put 4 0; Tombstone 5 0] He Hfeed).
Defined.

(** C9: on a non-empty index [compact(atRev, available)] returns and leaves
    the key bytes and the latest revision as they were. *)
Theorem compact_frame (ki : keyIndex) (av : gset reversion) (atRev : Z) :
  KI.isEmpty ki = false ->
  exists s', KI.compact atRev (ki, av) = Done tt s' /\
             key (fst s') = key ki /\ rev (fst s') = rev ki.
Proof.
  intros He. destruct (KI.findGeneration ki atRev) as [i|] eqn:Hf.
  - destruct (findGeneration_active _ _ _ Hf) as (g & Hg & _).
    destruct (compact_cases atRev ki av i g He Hf Hg) as (n & b & _ & _ & ->).
    eexists. split; [reflexivity|]. destruct (drops_tombstone ki atRev); auto.
  - rewrite (compact_none atRev ki av He Hf). eauto.
Qed.

Lemma compact_frame_witness :
  KI.isEmpty scenario = false /\
  exists s', KI.compact 4 (scenario, ∅) = Done tt s' /\
             key (fst s') = key scenario /\ rev (fst s') = rev scenario.
Proof.
  assert (He : KI.isEmpty scenario = false) by reflexivity.
  split; [assumption|].
  exact (compact_frame scenario ∅ 4 He).
Defined.

(** C10: right after a successful put or tombstone [isEmpty()] is false: a
    put leaves the last generation with at least one revision, a tombstone
    leaves at least two generations. *)
Theorem write_leaves_nonempty (o : op) (ki ki' : keyIndex) :
  apply_op o ki = Done tt ki' ->
  KI.isEmpty ki' = false /\
  match o with
  | Put _ _ =>
      exists g, last (generations ki') = Some g /\ (1 <= length (revs g))%nat
  | Tombstone _ _ => (2 <= length (generations ki'))%nat
  end.
Proof.
  intros H. split; [apply (apply_op_done _ _ _ H)|].
  destruct o as [r s|r s]; simpl in H.
  - destruct (put_done _ _ _ _ H) as (_ & _ & _ & Hg). exact Hg.
  - destruct (tombstone_done _ _ _ _ H) as (_ & _ & _ & Hlen). exact Hlen.
Qed.

Lemma write_leaves_nonempty_witness :
  apply_op (Tombstone 6 0) (fresh foo) = Done tt deleted_at_6 /\
  KI.isEmpty deleted_at_6 = false /\ (2 <= length (generations deleted_at_6))%nat.
Proof.
  assert (H : apply_op (Tombstone 6 0) (fresh foo) = Done tt deleted_at_6) by reflexivity.
  split; [assumption|].
  exact (write_leaves_nonempty (Tombstone 6 0) (fresh foo) deleted_at_6 H).
Defined.

(** ** Equality and ordering *)

Lemma bytes_Equal_eq a b : bytes.Equal a b = true <-> a = b.
Proof.
  revert b. induction a as [|x a IH]; intros [|y b]; simpl; split; try congruence.
  - intros [Hxy Hab]%andb_true_iff. apply byte_dec_bl in Hxy. apply IH in Hab. congruence.
  - intros [= -> ->]. apply andb_true_iff. split; [apply byte_dec_lb; reflexivity|].
    apply IH. reflexivity.
Qed.

Lemma to_N_inj x y : Byte.to_N x = Byte.to_N y -> x = y.
Proof.
  intros H. pose proof (Byte.of_to_N x) as Hx. rewrite H, Byte.of_to_N in Hx. congruence.
Qed.

Lemma bytes_Compare_eq a b : bytes.Compare a b = 0 <-> a = b.
Proof.
  revert b. induction a as [|x a IH]; intros [|y b]; simpl; split; try congruence; try lia.
  - destruct (N.ltb_spec (Byte.to_N x) (Byte.to_N y)); [lia|].
    destruct (N.ltb_spec (Byte.to_N y) (Byte.to_N x)); [lia|].
    intros Hab%IH. f_equal; [apply to_N_inj; lia|exact Hab].
  - intros [= -> ->]. rewrite N.ltb_irrefl. apply IH. reflexivity.
Qed.

Lemma bytes_Compare_range a b :
  bytes.Compare a b = -1 \/ bytes.Compare a b = 0 \/ bytes.Compare a b = 1.
Proof.
  revert b. induction a as [|x a IH]; intros [|y b]; simpl; auto.
  destruct (Byte.to_N x <? Byte.to_N y)%N; auto.
  destruct (Byte.to_N y <? Byte.to_N x)%N; auto.
Qed.

Lemma bytes_Compare_flip a b : bytes.Compare a b = -1 <-> bytes.Compare b a = 1.
Proof.
  revert b. induction a as [|x a IH]; intros [|y b]; simpl; split; try congruence; try lia.
  - destruct (N.ltb_spec (Byte.to_N x) (Byte.to_N y));
      destruct (N.ltb_spec (Byte.to_N y) (Byte.to_N x)); try lia. apply IH.
  - destruct (N.ltb_spec (Byte.to_N x) (Byte.to_N y));
      destruct (N.ltb_spec (Byte.to_N y) (Byte.to_N x)); try lia. apply IH.
Qed.

Lemma bytes_Compare_trans a b c :
  bytes.Compare a b = -1 -> bytes.Compare b c = -1 -> bytes.Compare a c = -1.
Proof.
  revert b c. induction a as [|x a IH]; intros [|y b] [|z c]; simpl; try congruence; try lia.
  destruct (N.ltb_spec (Byte.to_N x) (Byte.to_N y));
    destruct (N.ltb_spec (Byte.to_N y) (Byte.to_N x));
    destruct (N.ltb_spec (Byte.to_N y) (Byte.to_N z));
    destruct (N.ltb_spec (Byte.to_N z) (Byte.to_N y));
    destruct (N.ltb_spec (Byte.to_N x) (Byte.to_N z));
    destruct (N.ltb_spec (Byte.to_N z) (Byte.to_N x)); try lia.
  apply IH.
Qed.


Lemma reversion_eqb_eq a b : Gen.reversion_eqb a b = true <-> a = b.
Proof.
  unfold Gen.reversion_eqb. destruct a as [m1 s1], b as [m2 s2]. simpl.
  rewrite andb_true_iff, !Z.eqb_eq. split; [intros [-> ->]; reflexivity|].
  intros [= -> ->]. auto.
Qed.

(** A loop that compares two slices position by position decides whether
    they agree from [i] on. *)
Lemma loop_decides {A} (eqb : A -> A -> bool) (loop : list A -> list A -> nat -> nat -> bool) :
  (forall x y, eqb x y = true <-> x = y) ->
  (forall la lb i n,
     loop la lb i n =
     match n with
     | O => true
     | S n' =>
         match la !! i, lb !! i with
         | Some x, Some y => if negb (eqb x y) then false else loop la lb (S i) n'
         | _, _ => false
         end
     end) ->
  forall la lb, length la = length lb ->
  forall n i, (i + n = length la)%nat ->
  (loop la lb i n = true <-> drop i la = drop i lb).
Proof.
  intros Heqb Hloop la lb Hlen n. induction n as [|n IH]; intros i Hi; rewrite Hloop.
  - rewrite !drop_ge by lia. tauto.
  - destruct (la !! i) as [x|] eqn:Hx; [|apply lookup_ge_None in Hx; lia].
    destruct (lb !! i) as [y|] eqn:Hy; [|apply lookup_ge_None in Hy; lia].
    rewrite (drop_S la x i Hx), (drop_S lb y i Hy).
    destruct (eqb x y) eqn:Hxy; simpl.
    + apply Heqb in Hxy as ->. rewrite (IH (S i)) by lia.
      split; [intros ->; reflexivity|]. intros [= ->]. reflexivity.
    + split; [discriminate|]. intros [= -> _].
      rewrite (proj2 (Heqb y y) eq_refl) in Hxy. discriminate.
Qed.

Lemma Gen_equal_eq a b : Gen.equal a b = true <-> a = b.
Proof.
  unfold Gen.equal.
  destruct (Z.eqb_spec (ver a) (ver b)) as [Hv|Hv]; simpl.
  2:{ split; [discriminate|]. intros ->. contradiction. }
  destruct (Z.eqb_spec (Z.of_nat (length (revs a))) (Z.of_nat (length (revs b))))
    as [Hl|Hl]; simpl.
  2:{ split; [discriminate|]. intros ->. contradiction. }
  rewrite (loop_decides Gen.reversion_eqb Gen.equal_loop reversion_eqb_eq
             ltac:(intros ? ? ? []; reflexivity) (revs a) (revs b) ltac:(lia)
             (length (revs a)) 0%nat eq_refl).
  rewrite !drop_0. destruct a, b; simpl in *. split; [intros ->; congruence|].
  intros [= _ ->]. reflexivity.
Qed.

(** ** Writes and the history *)

Lemma alter_last {A} (f : A -> A) (l : list A) (x : A) :
  alter f (length (l ++ [x]) - 1)%nat (l ++ [x]) = l ++ [f x].
Proof.
  rewrite length_app. simpl. replace (length l + 1 - 1)%nat with (length l) by lia.
  induction l as [|y l IH]; simpl; [reflexivity|]. f_equal. exact IH.
Qed.

Lemma snoc_cases {A} (l : list A) : l = [] \/ exists l' x, l = l' ++ [x].
Proof.
  induction l as [|y l IH] using rev_ind; [left; reflexivity|right; eauto].
Qed.

(** What a [put] that returns has done to the generations. *)
Lemma put_shape rev0 subrev ki ki' :
  KI.put rev0 subrev ki = Done tt ki' ->
  key ki' = key ki /\ rev ki' = rev0 /\
  ((generations ki = [] /\
    generations ki' = [Generation 1 [Reversion rev0 subrev]]) \/
   (exists gs g,
      generations ki = gs ++ [g] /\
      generations ki' =
      gs ++ [Generation (wrap64 (ver g + 1)) (revs g ++ [Reversion rev0 subrev])])).
Proof.
  rewrite put_eq. destruct (rev0 <? rev ki); [discriminate|].
  intros [= <-]. simpl. split; [reflexivity|]. split; [reflexivity|].
  destruct (snoc_cases (generations ki)) as [Hnil|(gs & g & Hsnoc)].
  - left. split; [exact Hnil|]. rewrite Hnil. reflexivity.
  - right. exists gs, g. split; [exact Hsnoc|]. rewrite Hsnoc.
    replace (Z.of_nat (length (gs ++ [g])) =? 0) with false
      by (symmetry; apply Z.eqb_neq; rewrite length_app; simpl; lia).
    rewrite alter_last. reflexivity.
Qed.

Lemma history_snoc ki gs g :
  generations ki = gs ++ [g] ->
  history ki = concat (map revs gs) ++ revs g.
Proof.
  intros H. unfold history. rewrite H, map_app, concat_app. simpl.
  rewrite app_nil_r. reflexivity.
Qed.

Lemma put_history rev0 subrev ki ki' :
  KI.put rev0 subrev ki = Done tt ki' ->
  history ki' = history ki ++ [Reversion rev0 subrev].
Proof.
  intros H. destruct (put_shape _ _ _ _ H) as (_ & _ & [[H0 H1]|(gs & g & H0 & H1)]).
  - unfold history. rewrite H0, H1. reflexivity.
  - rewrite (history_snoc ki gs g H0), (history_snoc ki' gs _ H1). simpl.
    rewrite app_assoc. reflexivity.
Qed.

Lemma tombstone_shape rev0 subrev ki ki' :
  KI.tombstone rev0 subrev ki = Done tt ki' ->
  exists ki1, KI.put rev0 subrev ki = Done tt ki1 /\
              ki' = KI.set_generations (generations ki1 ++ [zero_generation]) ki1.
Proof.
  rewrite tombstone_eq. destruct (KI.isEmpty ki); [discriminate|].
  destruct (KI.put rev0 subrev ki) as [[] ki1|]; [|discriminate].
  intros [= <-]. eauto.
Qed.

Lemma tombstone_history rev0 subrev ki ki' :
  KI.tombstone rev0 subrev ki = Done tt ki' ->
  history ki' = history ki ++ [Reversion rev0 subrev].
Proof.
  intros H. destruct (tombstone_shape _ _ _ _ H) as (ki1 & Hput & ->).
  rewrite <- (put_history _ _ _ _ Hput). unfold history. simpl.
  rewrite map_app, concat_app. simpl. rewrite app_nil_r. reflexivity.
Qed.

Lemma apply_op_history (o : op) (ki ki' : keyIndex) :
  apply_op o ki = Done tt ki' ->
  history ki' = history ki ++ [op_rev o].
Proof.
  destruct o as [r s|r s]; simpl; [apply put_history|apply tombstone_history].
Qed.


Lemma apply_op_shape (o : op) (ki ki' : keyIndex) :
  apply_op o ki = Done tt ki' ->
  exists gs g,
    (generations ki = gs ++ [g] \/ (generations ki = [] /\ gs = [] /\ g = zero_generation)) /\
    generations ki' =
    gs ++ [Generation (wrap64 (ver g + 1)) (revs g ++ [op_rev o])]
       ++ match o with Put _ _ => [] | Tombstone _ _ => [zero_generation] end.
Proof.
  assert (Hput : forall r s k1 k2, KI.put r s k1 = Done tt k2 ->
            exists gs g,
              (generations k1 = gs ++ [g] \/
               (generations k1 = [] /\ gs = [] /\ g = zero_generation)) /\
              generations k2 =
              gs ++ [Generation (wrap64 (ver g + 1)) (revs g ++ [Reversion r s])]).
  { intros r s k1 k2 H.
    destruct (put_shape _ _ _ _ H) as (_ & _ & [[H0 H1]|(gs & g & H0 & H1)]).
    - exists [], zero_generation. split; [right; auto|]. rewrite H1. reflexivity.
    - exists gs, g. split; [left; exact H0|exact H1]. }
  destruct o as [r s|r s]; simpl; intros H.
  - destruct (Hput _ _ _ _ H) as (gs & g & Hg & Hk). exists gs, g.
    split; [exact Hg|]. rewrite Hk. reflexivity.
  - destruct (tombstone_shape _ _ _ _ H) as (ki1 & H1 & ->).
    destruct (Hput _ _ _ _ H1) as (gs & g & Hg & Hk). exists gs, g.
    split; [exact Hg|]. simpl. rewrite Hk, <- app_assoc. reflexivity.
Qed.

(** ** The order of the history *)

Lemma op_rev_main o : main (op_rev o) = op_main o.
Proof. destruct o; reflexivity. Qed.

Lemma fresh_ordered k : ordered (fresh k).
Proof. split; [constructor|constructor]. Qed.

Lemma apply_op_ordered o ki ki' :
  ordered ki -> apply_op o ki = Done tt ki' -> ordered ki'.
Proof.
  intros [Hs Hb] H. destruct (apply_op_done _ _ _ H) as (Hle & Hrev & _).
  unfold ordered. rewrite (apply_op_history _ _ _ H). split.
  - apply StronglySorted_app. split; [|split]; [|exact Hs|repeat constructor].
    intros x1 x2 Hx1 Hx2. apply list_elem_of_singleton in Hx2 as ->.
    unfold main_le. rewrite op_rev_main.
    rewrite Forall_forall in Hb. specialize (Hb x1 Hx1). lia.
  - apply Forall_app. split.
    + eapply Forall_impl; [exact Hb|]. simpl. intros; lia.
    + constructor; [|constructor]. rewrite op_rev_main. lia.
Qed.

Lemma run_ordered ops ki ki' :
  ordered ki -> run ops ki = Done tt ki' -> ordered ki'.
Proof.
  revert ki. induction ops as [|o ops IH]; intros ki Ho.
  - intros [= <-]. exact Ho.
  - rewrite run_cons. destruct (apply_op o ki) as [[] ki1|] eqn:H1; [|discriminate].
    apply IH. eapply apply_op_ordered; eauto.
Qed.

(** Each generation of a sorted history is sorted. *)
Lemma sorted_generation gens h :
  StronglySorted main_le (concat (map revs gens)) -> h ∈ gens ->
  StronglySorted main_le (revs h).
Proof.
  intros Hs Hh. apply list_elem_of_split in Hh as (l1 & l2 & ->).
  rewrite map_app, concat_app in Hs. simpl in Hs.
  apply StronglySorted_app_1_r, StronglySorted_app_1_l in Hs. exact Hs.
Qed.

(** In a sorted history a generation that does not qualify shows nothing. *)
Lemma unqualified_above atRev gens h x :
  StronglySorted main_le (concat (map revs gens)) -> h ∈ gens ->
  qualifies atRev h = false -> x ∈ revs h -> atRev < main x.
Proof.
  intros Hs Hh Hq Hx. pose proof (sorted_generation _ _ Hs Hh) as Hsh.
  unfold qualifies in Hq. destruct (revs h) as [|r0 rs]; [inversion Hx|].
  apply Z.leb_gt in Hq. apply elem_of_cons in Hx as [->|Hx]; [exact Hq|].
  apply StronglySorted_cons in Hsh as [Hall _].
  rewrite Forall_forall in Hall. specialize (Hall x Hx). unfold main_le in Hall. lia.
Qed.

Lemma elem_of_history gens x :
  x ∈ concat (map revs gens) <-> exists h, h ∈ gens /\ x ∈ revs h.
Proof.
  rewrite list_elem_of_In, in_concat. split.
  - intros (l & Hl & Hx). apply in_map_iff in Hl as (h & <- & Hh).
    exists h. split; apply list_elem_of_In; assumption.
  - intros (h & Hh & Hx). exists (revs h).
    apply list_elem_of_In in Hh. apply list_elem_of_In in Hx.
    split; [apply in_map; exact Hh|exact Hx].
Qed.

(** [read] looks for the first visible revision from the end. *)
Lemma read_find atRev rs : read atRev rs = find (visible atRev) (reverse rs).
Proof.
  unfold read. rewrite <- (find_newest_visible atRev rs (length rs)) by lia.
  rewrite take_ge by lia. reflexivity.
Qed.

Lemma find_app_l {A} (f : A -> bool) l1 l2 :
  (forall x, x ∈ l1 -> f x = false) -> find f (l1 ++ l2) = find f l2.
Proof.
  induction l1 as [|y l1 IH]; intros H; simpl; [reflexivity|].
  rewrite (H y) by (apply elem_of_cons; auto).
  apply IH. intros x Hx. apply H. apply elem_of_cons. auto.
Qed.

Lemma read_split atRev older b newer :
  main b <= atRev -> (forall x, x ∈ newer -> atRev < main x) ->
  read atRev (older ++ b :: newer) = Some b.
Proof.
  intros Hb Hnew. rewrite read_find, reverse_app, reverse_cons, <- app_assoc.
  rewrite find_app_l.
  - simpl. unfold visible. destruct (Z.leb_spec (main b) atRev); [reflexivity|lia].
  - intros x Hx. rewrite elem_of_reverse in Hx. unfold visible. apply Z.leb_gt. auto.
Qed.

Lemma read_nothing atRev rs :
  (forall x, x ∈ rs -> atRev < main x) -> read atRev rs = None.
Proof.
  intros H. rewrite read_find. rewrite <- (app_nil_r (reverse rs)).
  rewrite find_app_l; [reflexivity|].
  intros x Hx. rewrite elem_of_reverse in Hx. unfold visible. apply Z.leb_gt. auto.
Qed.

(** The history around the boundary that [compact] and [get] stop at. *)
Lemma history_at_boundary atRev ki i g n b :
  is_active atRev (generations ki) i g ->
  newest_visible atRev (revs g) (length (revs g)) = Some n ->
  revs g !! n = Some b ->
  history ki =
  (concat (map revs (take i (generations ki))) ++ take n (revs g))
  ++ b :: (drop (S n) (revs g) ++ concat (map revs (drop (S i) (generations ki)))).
Proof.
  intros (Hg & _) Hn Hb. unfold history.
  rewrite <- (take_drop_middle (generations ki) i g Hg) at 1.
  rewrite map_app, concat_app. simpl.
  rewrite <- (take_drop_middle (revs g) n b Hb) at 1.
  rewrite <- !app_assoc. reflexivity.
Qed.

Lemma newer_above atRev ki i g n :
  StronglySorted main_le (history ki) ->
  is_active atRev (generations ki) i g ->
  newest_visible atRev (revs g) (length (revs g)) = Some n ->
  forall x,
    x ∈ drop (S n) (revs g) ++ concat (map revs (drop (S i) (generations ki))) ->
    atRev < main x.
Proof.
  intros Hs (Hg & Hq & Hnew) Hn x Hx.
  destruct (newest_visible_Some _ _ _ _ Hn) as (_ & _ & _ & _ & Hnewer).
  apply elem_of_app in Hx as [Hx|Hx].
  - apply list_elem_of_lookup in Hx as (m & Hm). rewrite lookup_drop in Hm.
    apply (Hnewer (S n + m)%nat x); [|exact Hm]. apply lookup_lt_Some in Hm. lia.
  - apply elem_of_history in Hx as (h & Hh & Hx).
    apply list_elem_of_lookup in Hh as (j & Hj). rewrite lookup_drop in Hj.
    apply (unqualified_above atRev (generations ki) h x Hs).
    + apply list_elem_of_lookup. eauto.
    + apply (Hnew (S i + j)%nat h); [lia|exact Hj].
    + exact Hx.
Qed.

Lemma nothing_qualifies_above atRev ki :
  StronglySorted main_le (history ki) ->
  KI.findGeneration ki atRev = None ->
  forall x, x ∈ history ki -> atRev < main x.
Proof.
  intros Hs Hf x Hx. apply elem_of_history in Hx as (h & Hh & Hx).
  apply (unqualified_above atRev (generations ki) h x Hs Hh); [|exact Hx].
  apply list_elem_of_lookup in Hh as (j & Hj).
  apply (findGeneration_loop_None atRev _ _ (le_n _) Hf j h); [|exact Hj].
  apply lookup_lt_Some in Hj. exact Hj.
Qed.

(** On a sorted history [get] returns the newest revision of the whole
    history that is visible. *)
Lemma get_reads_history atRev ki :
  StronglySorted main_le (history ki) -> KI.isEmpty ki = false ->
  KI.get atRev ki = Done (answer (read atRev (history ki))) ki.
Proof.
  intros Hs He. destruct (KI.findGeneration ki atRev) as [i|] eqn:Hf.
  - destruct (findGeneration_active _ _ _ Hf) as (g & Ha).
    destruct (qualifies_has_boundary _ _ (proj1 (proj2 Ha))) as (n & b & Hn & Hb).
    rewrite (get_found atRev ki i g n b He Hf (proj1 Ha) Hn Hb).
    rewrite (history_at_boundary atRev ki i g n b Ha Hn Hb).
    rewrite read_split; [reflexivity| |].
    + destruct (newest_visible_Some _ _ _ _ Hn) as (_ & b' & Hb' & Hv & _). congruence.
    + apply (newer_above atRev ki i g n Hs Ha Hn).
  - rewrite (get_none atRev ki He Hf).
    rewrite (read_nothing atRev (history ki)); [reflexivity|].
    apply nothing_qualifies_above; assumption.
Qed.

(** ** What compaction does to the history *)

Lemma compact_history atRev ki av i g n b :
  KI.isEmpty ki = false ->
  is_active atRev (generations ki) i g ->
  newest_visible atRev (revs g) (length (revs g)) = Some n ->
  revs g !! n = Some b ->
  history (fst (final (KI.compact atRev (ki, av)))) =
    (if drops_tombstone ki atRev then [] else [b])
    ++ (drop (S n) (revs g) ++ concat (map revs (drop (S i) (generations ki)))) /\
  snd (final (KI.compact atRev (ki, av))) =
    (if drops_tombstone ki atRev then ({[ b ]} ∪ av) ∖ {[ b ]} else {[ b ]} ∪ av).
Proof.
  intros He Ha Hn Hb. pose proof (active_findGeneration _ _ _ _ Ha) as Hf.
  rewrite (compact_found atRev ki av i g n b He Hf (proj1 Ha) Hn Hb).
  rewrite (drops_tombstone_cond atRev ki i g n Hf (proj1 Ha) Hn).
  destruct (Nat.eqb_spec (length (drop n (revs g))) 1) as [Hlen|Hlen]; simpl.
  - destruct (negb (i =? length (generations ki) - 1)%nat); simpl.
    + split; [|reflexivity]. unfold history. simpl.
      rewrite length_drop in Hlen. rewrite (drop_ge (revs g) (S n)) by lia. reflexivity.
    + split; [|reflexivity]. unfold history. simpl.
      rewrite (drop_S _ _ _ Hb). reflexivity.
  - split; [|reflexivity]. unfold history. simpl.
    rewrite (drop_S _ _ _ Hb). reflexivity.
Qed.

Lemma filter_all {A} (P : A -> Prop) `{forall x, Decision (P x)} (l : list A) :
  (forall x, x ∈ l -> P x) -> filter P l = l.
Proof.
  induction l as [|y l IH]; intros Hall; [reflexivity|].
  rewrite filter_cons_True by (apply Hall, elem_of_cons; auto).
  f_equal. apply IH. intros x Hx. apply Hall, elem_of_cons. auto.
Qed.

Lemma filter_none {A} (P : A -> Prop) `{forall x, Decision (P x)} (l : list A) :
  (forall x, x ∈ l -> ~ P x) -> filter P l = [].
Proof.
  induction l as [|y l IH]; intros Hall; [reflexivity|].
  rewrite filter_cons_False by (apply Hall, elem_of_cons; auto).
  apply IH. intros x Hx. apply Hall, elem_of_cons. auto.
Qed.

Lemma compact_state_none atRev ki av :
  KI.findGeneration ki atRev = None ->
  final (KI.compact atRev (ki, av)) = (ki, av).
Proof.
  intros Hf. destruct (KI.isEmpty ki) eqn:He.
  - rewrite compact_empty by exact He. reflexivity.
  - rewrite compact_none by assumption. reflexivity.
Qed.

Lemma compact_suffix atRev ki av :
  exists dropped,
    history ki = dropped ++ history (fst (final (KI.compact atRev (ki, av)))).
Proof.
  destruct (KI.isEmpty ki) eqn:He.
  { exists []. rewrite compact_empty by exact He. reflexivity. }
  destruct (KI.findGeneration ki atRev) as [i|] eqn:Hf.
  2:{ exists []. rewrite compact_state_none by exact Hf. reflexivity. }
  destruct (findGeneration_active _ _ _ Hf) as (g & Ha).
  destruct (qualifies_has_boundary _ _ (proj1 (proj2 Ha))) as (n & b & Hn & Hb).
  destruct (compact_history atRev ki av i g n b He Ha Hn Hb) as [-> _].
  rewrite (history_at_boundary atRev ki i g n b Ha Hn Hb).
  destruct (drops_tombstone ki atRev).
  - exists ((concat (map revs (take i (generations ki))) ++ take n (revs g)) ++ [b]).
    rewrite <- (app_assoc _ [b]). reflexivity.
  - exists (concat (map revs (take i (generations ki))) ++ take n (revs g)).
    reflexivity.
Qed.

Lemma compact_rev atRev ki av :
  rev (fst (final (KI.compact atRev (ki, av)))) = rev ki.
Proof.
  destruct (KI.isEmpty ki) eqn:He; [rewrite compact_empty by exact He; reflexivity|].
  destruct (KI.findGeneration ki atRev) as [i|] eqn:Hf;
    [|rewrite compact_state_none by exact Hf; reflexivity].
  destruct (findGeneration_active _ _ _ Hf) as (g & Hg & _).
  destruct (compact_cases atRev ki av i g He Hf Hg) as (n & b & _ & _ & ->).
  destruct (drops_tombstone ki atRev); reflexivity.
Qed.

Lemma compact_ordered atRev ki av :
  ordered ki -> ordered (fst (final (KI.compact atRev (ki, av)))).
Proof.
  intros [Hs Hb]. destruct (compact_suffix atRev ki av) as (dropped & Hd).
  unfold ordered. rewrite compact_rev. rewrite Hd in Hs, Hb. split.
  - eapply StronglySorted_app_1_r; exact Hs.
  - apply Forall_app in Hb as [_ Hb]. exact Hb.
Qed.

Lemma compact_filter atRev ki av :
  ordered ki -> KI.isEmpty ki = false ->
  history (fst (final (KI.compact atRev (ki, av)))) =
  (if drops_tombstone ki atRev then [] else option_list (read atRev (history ki)))
  ++ filter (fun x => atRev < main x) (history ki).
Proof.
  intros [Hs _] He. destruct (KI.findGeneration ki atRev) as [i|] eqn:Hf.
  - destruct (findGeneration_active _ _ _ Hf) as (g & Ha).
    destruct (qualifies_has_boundary _ _ (proj1 (proj2 Ha))) as (n & b & Hn & Hb).
    destruct (compact_history atRev ki av i g n b He Ha Hn Hb) as [-> _].
    pose proof (newer_above atRev ki i g n Hs Ha Hn) as Hnewer.
    assert (Hvb : main b <= atRev).
    { destruct (newest_visible_Some _ _ _ _ Hn) as (_ & b' & Hb' & Hv & _). congruence. }
    rewrite (history_at_boundary atRev ki i g n b Ha Hn Hb) in Hs |- *.
    rewrite (read_split atRev _ b _ Hvb Hnewer). simpl.
    rewrite filter_app, filter_cons_False by lia.
    rewrite filter_none, filter_all; [reflexivity|exact Hnewer|].
    intros x Hx. pose proof (StronglySorted_app_1_elem_of _ _ _ x b Hs Hx) as Hle.
    unfold main_le in Hle. specialize (Hle ltac:(apply elem_of_cons; auto)). lia.
  - rewrite compact_state_none by exact Hf. simpl.
    pose proof (nothing_qualifies_above atRev ki Hs Hf) as Habove.
    unfold drops_tombstone. rewrite Hf.
    rewrite (read_nothing atRev _ Habove). simpl.
    rewrite filter_all; [reflexivity|exact Habove].
Qed.

Lemma get_value_state atRev ki x :
  value (KI.get atRev ki) = Some x -> KI.get atRev ki = Done x ki.
Proof.
  destruct (KI.isEmpty ki) eqn:He; [rewrite get_empty by exact He; discriminate|].
  destruct (KI.findGeneration ki atRev) as [i|] eqn:Hf.
  - destruct (findGeneration_active _ _ _ Hf) as (g & Hg & Hq & _).
    destruct (qualifies_has_boundary _ _ Hq) as (n & b & Hn & Hb).
    rewrite (get_found atRev ki i g n b He Hf Hg Hn Hb). simpl. congruence.
  - rewrite (get_none atRev ki He Hf). simpl. congruence.
Qed.

(** ** Further facts about reads, compaction and versions *)

Lemma get_found_visible atRev ki r :
  value (KI.get atRev ki) = Some (r, None) ->
  r ∈ history ki /\ main r <= atRev.
Proof.
  destruct (KI.isEmpty ki) eqn:He; [rewrite get_empty by exact He; discriminate|].
  destruct (KI.findGeneration ki atRev) as [i|] eqn:Hf.
  - destruct (findGeneration_active _ _ _ Hf) as (g & Hg & Hq & _).
    destruct (qualifies_has_boundary _ _ Hq) as (n & b & Hn & Hb).
    rewrite (get_found atRev ki i g n b He Hf Hg Hn Hb). simpl. intros [= <-].
    split.
    + apply elem_of_history. exists g.
      split; [eapply list_elem_of_lookup_2; exact Hg|eapply list_elem_of_lookup_2; exact Hb].
    + destruct (newest_visible_Some _ _ _ _ Hn) as (_ & b' & Hb' & Hv & _). congruence.
  - rewrite (get_none atRev ki He Hf). discriminate.
Qed.

Lemma nothing_visible_no_generation atRev ki :
  (forall x, x ∈ history ki -> atRev < main x) ->
  KI.findGeneration ki atRev = None.
Proof.
  intros Habove. unfold KI.findGeneration. apply findGeneration_loop_skip; [lia|].
  intros j h _ Hh. unfold qualifies. destruct (revs h) as [|r0 rs] eqn:Hr; [reflexivity|].
  apply Z.leb_gt. apply Habove. apply elem_of_history. exists h. split.
  - eapply list_elem_of_lookup_2; exact Hh.
  - rewrite Hr. apply elem_of_cons. auto.
Qed.

Lemma compact_adds_the_read atRev ki av r :
  r ∈ snd (final (KI.compact atRev (ki, av))) -> r ∉ av ->
  value (KI.get atRev ki) = Some (r, None) /\
  value (KI.get atRev (fst (final (KI.compact atRev (ki, av))))) = Some (r, None).
Proof.
  intros Hin Hnot.
  destruct (KI.isEmpty ki) eqn:He;
    [rewrite compact_empty in Hin by exact He; contradiction|].
  destruct (KI.findGeneration ki atRev) as [i|] eqn:Hf;
    [|rewrite compact_state_none in Hin by exact Hf; contradiction].
  destruct (findGeneration_active _ _ _ Hf) as (g & Ha).
  destruct (qualifies_has_boundary _ _ (proj1 (proj2 Ha))) as (n & b & Hn & Hb).
  destruct (compact_history atRev ki av i g n b He Ha Hn Hb) as [_ Hav].
  rewrite Hav in Hin.
  assert (Hget : value (KI.get atRev ki) = Some (b, None)).
  { rewrite (get_found atRev ki i g n b He Hf (proj1 Ha) Hn Hb). reflexivity. }
  destruct (drops_tombstone ki atRev) eqn:Hd.
  - apply elem_of_difference in Hin as [Hin Hne].
    apply elem_of_union in Hin as [Hin|Hin]; contradiction.
  - apply elem_of_union in Hin as [Hin|Hin]; [|contradiction].
    apply elem_of_singleton in Hin as ->. split; [exact Hget|].
    rewrite (compact_keeps_get ki av atRev atRev); [exact Hget|lia|].
    rewrite Hd. discriminate.
Qed.

Lemma compact_deleted_key atRev ki av gs g e :
  ordered ki ->
  generations ki = gs ++ [g; e] -> revs g <> [] -> revs e = [] ->
  rev ki <= atRev ->
  generations (fst (final (KI.compact atRev (ki, av)))) = [e] /\
  KI.isEmpty (fst (final (KI.compact atRev (ki, av)))) = true.
Proof.
  intros [_ Hbound] Hgens Hg He Hle. rewrite Forall_forall in Hbound.
  assert (Hlook : generations ki !! length gs = Some g).
  { rewrite Hgens. apply list_lookup_middle. reflexivity. }
  assert (Hin : forall x, x ∈ revs g -> main x <= atRev).
  { intros x Hx. specialize (Hbound x). unfold history in Hbound.
    rewrite elem_of_history in Hbound. etransitivity; [apply Hbound|exact Hle].
    exists g. split; [eapply list_elem_of_lookup_2; exact Hlook|exact Hx]. }
  assert (Ha : is_active atRev (generations ki) (length gs) g).
  { split; [exact Hlook|]. split.
    - unfold qualifies. destruct (revs g) as [|r0 rs]; [contradiction|].
      apply Z.leb_le. apply Hin. apply elem_of_cons. auto.
    - intros j h Hj Hh. rewrite Hgens in Hh.
      rewrite lookup_app_r in Hh by lia.
      destruct (j - length gs)%nat as [|[|k]] eqn:Hk; [lia| |].
      + injection Hh as <-. unfold qualifies. rewrite He. reflexivity.
      + discriminate. }
  pose proof (active_not_empty _ _ _ _ Ha) as Hne.
  pose proof (active_findGeneration _ _ _ _ Ha) as Hf.
  assert (Hd : drops_tombstone ki atRev = true).
  { unfold drops_tombstone. rewrite Hf, Hlook.
    rewrite Hgens at 1. rewrite length_app. simpl.
    replace (length gs =? length gs + 2 - 1)%nat with false
      by (symmetry; apply Nat.eqb_neq; lia).
    simpl. destruct (last (revs g)) as [b|] eqn:Hlast.
    - unfold visible. apply Z.leb_le. apply Hin.
      rewrite last_lookup in Hlast. eapply list_elem_of_lookup_2; exact Hlast.
    - apply last_None in Hlast. contradiction. }
  destruct (compact_cases atRev ki av (length gs) g Hne Hf Hlook) as (n & b & _ & _ & ->).
  rewrite Hd. simpl. rewrite Hgens.
  replace (drop (S (length gs)) (gs ++ [g; e])) with [e].
  - split; [reflexivity|]. unfold KI.isEmpty. simpl. rewrite He. reflexivity.
  - change (S (length gs)) with (1 + length gs)%nat.
    rewrite Nat.add_comm, <- drop_drop, drop_app_length. reflexivity.
Qed.

Lemma wrap64_succ z : wrap64 (wrap64 z + 1) = wrap64 (z + 1).
Proof.
  unfold wrap64.
  replace ((z + 2 ^ 63) mod 2 ^ 64 - 2 ^ 63 + 1 + 2 ^ 63)
    with ((z + 2 ^ 63) mod 2 ^ 64 + 1) by lia.
  rewrite Zplus_mod_idemp_l. f_equal. f_equal. lia.
Qed.

Lemma apply_op_counted o ki ki' :
  counted ki -> apply_op o ki = Done tt ki' -> counted ki'.
Proof.
  unfold counted. intros Hc H.
  destruct (apply_op_shape o ki ki' H) as (gs & g & Hg & ->).
  assert (Hgs : Forall (fun g => ver g = wrap64 (Z.of_nat (length (revs g)))) gs /\
                ver g = wrap64 (Z.of_nat (length (revs g)))).
  { destruct Hg as [Hg|(_ & -> & ->)].
    - rewrite Hg in Hc. apply Forall_app in Hc as [H1 H2].
      split; [exact H1|]. inversion H2; assumption.
    - split; [constructor|reflexivity]. }
  destruct Hgs as [Hgs Hv].
  apply Forall_app. split; [exact Hgs|]. apply Forall_app. split.
  - constructor; [|constructor]. simpl. rewrite length_app. simpl.
    rewrite Hv, wrap64_succ. f_equal. lia.
  - destruct o; repeat constructor.
Qed.

Lemma run_counted ops ki ki' :
  counted ki -> run ops ki = Done tt ki' -> counted ki'.
Proof.
  revert ki. induction ops as [|o ops IH]; intros ki Hc.
  - intros [= <-]. exact Hc.
  - rewrite run_cons. destruct (apply_op o ki) as [[] ki1|] eqn:H1; [|discriminate].
    apply IH. eapply apply_op_counted; eauto.
Qed.

Lemma walk_loop_pure {St} (p : reversion -> bool) rs k (s : St) :
  (k <= length rs)%nat ->
  exists n, Gen.walk_loop (fun r => ret (p r)) rs k s = Done n s /\
    ((n = -1 /\ forall m r, (m < k)%nat -> rs !! m = Some r -> p r = true) \/
     (exists j r, n = Z.of_nat j /\ (j < k)%nat /\ rs !! j = Some r /\ p r = false /\
        forall m r', (j < m < k)%nat -> rs !! m = Some r' -> p r' = true)).
Proof.
  induction k as [|k IH]; intros Hk; simpl.
  - exists (-1). split; [reflexivity|]. left. split; [reflexivity|]. intros; lia.
  - destruct (rs !! k) as [r|] eqn:Hr; [|apply lookup_ge_None in Hr; lia].
    unfold bind, ret at 1. destruct (p r) eqn:Hp; simpl.
    + destruct (IH ltac:(lia)) as (n & Hw & Hn). exists n. split; [exact Hw|].
      destruct Hn as [[-> Hall]|(j & r' & -> & Hj & Hr' & Hp' & Hall)].
      * left. split; [reflexivity|]. intros m r' Hm Hr'.
        destruct (decide (m = k)) as [->|]; [congruence|]. apply (Hall m r'); [lia|exact Hr'].
      * right. exists j, r'. repeat split; auto; try lia.
        intros m r'' Hm Hr''. destruct (decide (m = k)) as [->|]; [congruence|].
        apply (Hall m r''); [lia|exact Hr''].
    + exists (Z.of_nat k). split; [reflexivity|]. right. exists k, r.
      repeat split; auto. intros; lia.
Qed.

(** ** Compacting in steps *)

Lemma newest_visible_drop atRev r rs n m :
  newest_visible atRev rs (length rs) = Some n ->
  atRev <= r ->
  newest_visible r rs (length rs) = Some m ->
  (n <= m)%nat /\
  newest_visible r (drop n rs) (length (drop n rs)) = Some (m - n)%nat.
Proof.
  intros Hn Hle Hm.
  destruct (newest_visible_Some _ _ _ _ Hn) as (Hlt & b & Hb & Hvb & _).
  destruct (newest_visible_Some _ _ _ _ Hm) as (Hmlt & c & Hc & Hvc & Hnew).
  assert (Hnm : (n <= m)%nat).
  { destruct (decide (n <= m)%nat) as [|Hgt]; [assumption|].
    specialize (Hnew n b ltac:(lia) Hb). lia. }
  split; [exact Hnm|].
  apply (newest_visible_intro r (drop n rs) _ (m - n)%nat c).
  - rewrite length_drop. lia.
  - rewrite lookup_drop. replace (n + (m - n))%nat with m by lia. exact Hc.
  - exact Hvc.
  - intros k x Hk Hx. rewrite lookup_drop in Hx. rewrite length_drop in Hk.
    apply (Hnew (n + k)%nat x); [lia|exact Hx].
  - lia.
Qed.

(** The index a compaction leaves, for an active generation [g] at [i]
    whose boundary is at [n]. *)
Lemma compact_index atRev ki av i g n :
  is_active atRev (generations ki) i g ->
  newest_visible atRev (revs g) (length (revs g)) = Some n ->
  fst (final (KI.compact atRev (ki, av))) =
  KI.set_generations
    (if (length (drop n (revs g)) =? 1)%nat
        && negb (i =? length (generations ki) - 1)%nat
     then drop (S i) (generations ki)
     else Generation (ver g) (drop n (revs g)) :: drop (S i) (generations ki)) ki.
Proof.
  intros Ha Hn. pose proof (active_not_empty _ _ _ _ Ha) as He.
  pose proof (active_findGeneration _ _ _ _ Ha) as Hf.
  destruct (newest_visible_Some _ _ _ _ Hn) as (_ & b & Hb & _).
  rewrite (compact_found atRev ki av i g n b He Hf (proj1 Ha) Hn Hb).
  destruct ((length (drop n (revs g)) =? 1)%nat
            && negb (i =? length (generations ki) - 1)%nat); reflexivity.
Qed.

Lemma compact_index_none atRev ki av :
  (forall j h, generations ki !! j = Some h -> qualifies atRev h = false) ->
  fst (final (KI.compact atRev (ki, av))) = ki.
Proof.
  intros Hall. rewrite compact_state_none; [reflexivity|].
  unfold KI.findGeneration. apply findGeneration_loop_skip; [lia|].
  intros j h _. apply Hall.
Qed.

Lemma set_generations_twice l1 l2 ki :
  KI.set_generations l1 (KI.set_generations l2 ki) = KI.set_generations l1 ki.
Proof. reflexivity. Qed.

Lemma compact_in_steps ki av a b :
  a <= b ->
  fst (final (KI.compact b (final (KI.compact a (ki, av)))))
  = fst (final (KI.compact b (ki, av))).
Proof.
  intros Hle.
  destruct (KI.isEmpty ki) eqn:He.
  { rewrite (compact_empty a) by exact He. reflexivity. }
  destruct (KI.findGeneration ki a) as [i|] eqn:Hf.
  2:{ rewrite (compact_none a) by assumption. reflexivity. }
  destruct (findGeneration_active _ _ _ Hf) as (g & Ha).
  destruct (qualifies_has_boundary _ _ (proj1 (proj2 Ha))) as (n & c & Hn & Hc).
  destruct (active_later _ b _ _ _ Ha Hle) as (j & h & Hb & Hij).
  destruct (qualifies_has_boundary _ _ (proj1 (proj2 Hb))) as (m & d & Hm & Hd).
  pose proof (lookup_lt_Some _ _ _ (proj1 Ha)) as Hilt.
  pose proof (lookup_lt_Some _ _ _ (proj1 Hb)) as Hjlt.
  destruct (newest_visible_Some _ _ _ _ Hn) as (Hnlt & c' & Hc' & Hvc & _).
  assert (c' = c) as -> by congruence.
  pose proof (lookup_lt_Some _ _ _ Hd) as Hmlt.
  rewrite (compact_index b ki av j h m Hb Hm).
  pose proof (compact_index a ki av i g n Ha Hn) as H1.
  destruct (final (KI.compact a (ki, av))) as [ki1 av1]. simpl in H1. subst ki1.
  set (cond_a := (length (drop n (revs g)) =? 1)%nat
                 && negb (i =? length (generations ki) - 1)%nat) in *.
  destruct (decide (i = j)) as [<-|Hne].
  - assert (h = g) as -> by (destruct Ha as [Hg _], Hb as [Hh _]; congruence).
    destruct (newest_visible_drop a b (revs g) n m Hn Hle Hm) as [Hnm Hm'].
    destruct cond_a eqn:Hcond.
    + (* the generation went at [a]; nothing is left for [b] to find *)
      apply andb_true_iff in Hcond as [Hlen Hlast]. apply Nat.eqb_eq in Hlen.
      rewrite length_drop in Hlen. assert (m = n) as -> by lia.
      replace ((length (drop n (revs g)) =? 1)%nat
               && negb (i =? length (generations ki) - 1)%nat) with true
        by (rewrite length_drop; symmetry; apply andb_true_iff; split;
            [apply Nat.eqb_eq; lia|exact Hlast]).
      apply compact_index_none. simpl. intros k x Hx.
      rewrite lookup_drop in Hx. apply (proj2 (proj2 Hb) (S i + k)%nat x); [lia|exact Hx].
    + (* the trimmed generation is still the active one *)
      set (g' := Generation (ver g) (drop n (revs g))).
      set (ki1 := KI.set_generations (g' :: drop (S i) (generations ki)) ki).
      assert (Ha1 : is_active b (generations ki1) 0 g').
      { subst ki1. simpl. apply is_active_head.
        - apply (qualifies_trimmed b g n c Hc). lia.
        - apply not_active_drop. intros k x Hk. apply (proj2 (proj2 Hb)). lia. }
      rewrite (compact_index b ki1 av1 0 g' (m - n) Ha1 Hm').
      subst ki1 g'. unfold KI.set_generations. cbn [generations revs ver key rev length].
      rewrite !drop_drop, !length_drop. replace (n + (m - n))%nat with m by lia.
      replace (0 =? S (length (generations ki) - S i) - 1)%nat
        with (i =? length (generations ki) - 1)%nat
        by (destruct (Nat.eqb_spec i (length (generations ki) - 1)),
                     (Nat.eqb_spec 0 (S (length (generations ki) - S i) - 1));
            try reflexivity; lia).
      destruct ((length (revs g) - m =? 1)%nat
                && negb (i =? length (generations ki) - 1)%nat); reflexivity.
  - (* a newer generation serves [b]; it is where it was, [i + 1] places down *)
    assert (Hlater : is_active b (drop (S i) (generations ki)) (j - S i) h)
      by (apply is_active_drop; [lia|exact Hb]).
    destruct cond_a.
    + set (ki1 := KI.set_generations (drop (S i) (generations ki)) ki).
      rewrite (compact_index b ki1 av1 (j - S i) h m Hlater Hm).
      subst ki1. unfold KI.set_generations. cbn [generations key rev].
      rewrite !drop_drop, !length_drop.
      replace (S i + S (j - S i))%nat with (S j) by lia.
      replace (j - S i =? length (generations ki) - S i - 1)%nat
        with (j =? length (generations ki) - 1)%nat
        by (destruct (Nat.eqb_spec j (length (generations ki) - 1)),
                     (Nat.eqb_spec (j - S i) (length (generations ki) - S i - 1));
            try reflexivity; lia).
      reflexivity.
    + set (g' := Generation (ver g) (drop n (revs g))).
      set (ki1 := KI.set_generations (g' :: drop (S i) (generations ki)) ki).
      assert (Ha1 : is_active b (generations ki1) (S (j - S i)) h)
        by (subst ki1; simpl; apply is_active_cons; exact Hlater).
      rewrite (compact_index b ki1 av1 (S (j - S i)) h m Ha1 Hm).
      subst ki1 g'. unfold KI.set_generations. cbn [generations key rev length].
      rewrite skipn_cons, !drop_drop, !length_drop.
      replace (S i + S (j - S i))%nat with (S j) by lia.
      replace (S (j - S i) =? S (length (generations ki) - S i) - 1)%nat
        with (j =? length (generations ki) - 1)%nat
        by (destruct (Nat.eqb_spec j (length (generations ki) - 1)),
                     (Nat.eqb_spec (S (j - S i)) (S (length (generations ki) - S i) - 1));
            try reflexivity; lia).
      reflexivity.
Qed.

(** ** Further properties of the index *)

Lemma scenario_ordered : ordered scenario.
Proof.
  split; [repeat constructor; unfold main_le; simpl; lia|].
  repeat constructor; simpl; lia.
Qed.

(** X4: an index built from nothing by puts and tombstones holds its
    revisions in ascending order of [main], none beyond the latest
    revision. *)
Theorem built_history_ordered (k : list byte) (ops : list op) (ki : keyIndex) :
  run ops (fresh k) = Done tt ki -> ordered ki.
Proof. apply run_ordered, fresh_ordered. Qed.

Lemma built_history_ordered_witness :
  run scenario_ops (fresh foo) = Done tt scenario /\ ordered scenario.
Proof.
  assert (H : run scenario_ops (fresh foo) = Done tt scenario) by reflexivity.
  split; [assumption|].
  exact (built_history_ordered foo scenario_ops scenario H).
Defined.

(** X5: compaction keeps the history in order. *)
Theorem compact_preserves_order (ki : keyIndex) (av : gset reversion) (atRev : Z) :
  ordered ki -> ordered (fst (final (KI.compact atRev (ki, av)))).
Proof. apply compact_ordered. Qed.

Lemma compact_preserves_order_witness :
  ordered scenario /\ ordered (fst (final (KI.compact 4 (scenario, ∅)))).
Proof.
  assert (H : ordered scenario) by exact scenario_ordered.
  split; [assumption|].
  exact (compact_preserves_order scenario ∅ 4 H).
Defined.

(** X6: on an ordered index that is not logically empty, [get(atRev)]
    returns the newest revision of the whole history with
    [main <= atRev], and NotFound when the history has none. *)
Theorem get_returns_newest_of_history (ki : keyIndex) (atRev : Z) :
  ordered ki -> KI.isEmpty ki = false ->
  KI.get atRev ki = Done (answer (read atRev (history ki))) ki.
Proof. intros [Hs _]. apply get_reads_history. exact Hs. Qed.

Lemma get_returns_newest_of_history_witness :
  ordered scenario /\ KI.isEmpty scenario = false /\
  KI.get 4 scenario = Done (answer (read 4 (history scenario))) scenario.
Proof.
  assert (Ho : ordered scenario) by exact scenario_ordered.
  assert (He : KI.isEmpty scenario = false) by reflexivity.
  repeat (split; [assumption|]).
  exact (get_returns_newest_of_history scenario 4 Ho He).
Defined.

(** X7: on an ordered index, once a put or tombstone has returned, every
    [get(r)] with [r] at or above its [main] returns the revision just
    written. *)
Theorem write_then_read (o : op) (ki ki' : keyIndex) (r : Z) :
  ordered ki -> apply_op o ki = Done tt ki' -> op_main o <= r ->
  KI.get r ki' = Done (op_rev o, None) ki'.
Proof.
  intros Ho H Hle. destruct (apply_op_ordered o ki ki' Ho H) as [Hs _].
  destruct (apply_op_done _ _ _ H) as (_ & _ & _ & He).
  rewrite (get_reads_history r ki' Hs He), (apply_op_history o ki ki' H).
  rewrite (read_split r (history ki) (op_rev o) []); [reflexivity| |].
  - rewrite op_rev_main. exact Hle.
  - intros x Hx. inversion Hx.
Qed.

Lemma write_then_read_witness :
  ordered scenario /\ apply_op (Put 6 1) scenario = Done tt put_6_1 /\
  op_main (Put 6 1) <= 9 /\
  KI.get 9 put_6_1 = Done (op_rev (Put 6 1), None) put_6_1.
Proof.
  assert (Ho : ordered scenario) by exact scenario_ordered.
  assert (H : apply_op (Put 6 1) scenario = Done tt put_6_1) by reflexivity.
  assert (Hle : op_main (Put 6 1) <= 9) by (simpl; lia).
  repeat (split; [assumption|]).
  exact (write_then_read (Put 6 1) scenario put_6_1 9 Ho H Hle).
Defined.

(** X8: compaction only removes revisions from the old end of the history:
    what it leaves is a suffix of what was there, whatever the index. *)
Theorem compact_drops_oldest_only (ki : keyIndex) (av : gset reversion) (atRev : Z) :
  exists dropped,
    history ki = dropped ++ history (fst (final (KI.compact atRev (ki, av)))).
Proof. apply compact_suffix. Qed.

(** X9: on an ordered index that is not logically empty,
    [compact(atRev, available)] leaves exactly the revisions with
    [main > atRev], preceded by the newest revision with [main <= atRev]
    unless that one is the last revision of a generation that is not the
    last. *)
Theorem compact_keeps_newer_and_boundary (ki : keyIndex) (av : gset reversion)
        (atRev : Z) :
  ordered ki -> KI.isEmpty ki = false ->
  history (fst (final (KI.compact atRev (ki, av)))) =
  (if drops_tombstone ki atRev then [] else option_list (read atRev (history ki)))
  ++ filter (fun x => atRev < main x) (history ki).
Proof. apply compact_filter. Qed.

Lemma compact_keeps_newer_and_boundary_witness :
  ordered scenario /\ KI.isEmpty scenario = false /\
  history (fst (final (KI.compact 4 (scenario, ∅)))) =
  (if drops_tombstone scenario 4 then [] else option_list (read 4 (history scenario)))
  ++ filter (fun x => 4 < main x) (history scenario).
Proof.
  assert (Ho : ordered scenario) by exact scenario_ordered.
  assert (He : KI.isEmpty scenario = false) by reflexivity.
  repeat (split; [assumption|]).
  exact (compact_keeps_newer_and_boundary scenario ∅ 4 Ho He).
Defined.

(** X10: a revision that [compact(atRev, available)] adds to [available]
    is the one [get(atRev)] returned before the call and still returns
    after it. *)
Theorem compact_available_is_read (ki : keyIndex) (av : gset reversion)
        (atRev : Z) (r : reversion) :
  r ∈ snd (final (KI.compact atRev (ki, av))) -> r ∉ av ->
  value (KI.get atRev ki) = Some (r, None) /\
  value (KI.get atRev (fst (final (KI.compact atRev (ki, av))))) = Some (r, None).
Proof. apply compact_adds_the_read. Qed.

Lemma compact_available_is_read_witness :
  (Reversion 2 0 ∈ snd (final (KI.compact 2 (scenario, ∅)))) /\
  (Reversion 2 0 ∉ (∅ : gset reversion)) /\
  value (KI.get 2 scenario) = Some (Reversion 2 0, None) /\
  value (KI.get 2 (fst (final (KI.compact 2 (scenario, ∅))))) = Some (Reversion 2 0, None).
Proof.
  assert (Hin : Reversion 2 0 ∈ snd (final (KI.compact 2 (scenario, ∅)))).
  { replace (snd (final (KI.compact 2 (scenario, ∅))))
      with ({[ Reversion 2 0 ]} : gset reversion) by (vm_compute; reflexivity).
    apply elem_of_singleton. reflexivity. }
  assert (Hnot : Reversion 2 0 ∉ (∅ : gset reversion)) by apply not_elem_of_empty.
  repeat (split; [assumption|]).
  exact (compact_available_is_read scenario ∅ 2 (Reversion 2 0) Hin Hnot).
Defined.

(** X11: when every revision of the index is newer than [atRev],
    [compact(atRev, available)] returns without changing the index or
    [available]. *)
Theorem compact_below_history_is_noop (ki : keyIndex) (av : gset reversion)
        (atRev : Z) :
  KI.isEmpty ki = false ->
  (forall x, x ∈ history ki -> atRev < main x) ->
  KI.compact atRev (ki, av) = Done tt (ki, av).
Proof.
  intros He Habove. apply compact_none; [exact He|].
  apply nothing_visible_no_generation. exact Habove.
Qed.

Lemma compact_below_history_is_noop_witness :
  KI.isEmpty scenario = false /\
  (forall x, x ∈ history scenario -> 0 < main x) /\
  KI.compact 0 (scenario, ∅) = Done tt (scenario, ∅).
Proof.
  assert (He : KI.isEmpty scenario = false) by reflexivity.
  assert (Habove : forall x, x ∈ history scenario -> 0 < main x).
  { intros x Hx. vm_compute in Hx.
    repeat (apply elem_of_cons in Hx as [->|Hx]; [simpl; lia|]). inversion Hx. }
  repeat (split; [assumption|]).
  exact (compact_below_history_is_noop scenario ∅ 0 He Habove).
Defined.

(** X12: a revision that [get(atRev)] returns is held by the index and has
    [main <= atRev]. *)
Theorem get_result_is_visible (ki : keyIndex) (atRev : Z) (r : reversion) :
  value (KI.get atRev ki) = Some (r, None) ->
  r ∈ history ki /\ main r <= atRev.
Proof. apply get_found_visible. Qed.

Lemma get_result_is_visible_witness :
  value (KI.get 6 scenario) = Some (Reversion 5 0, None) /\
  Reversion 5 0 ∈ history scenario /\ main (Reversion 5 0) <= 6.
Proof.
  assert (H : value (KI.get 6 scenario) = Some (Reversion 5 0, None)) by reflexivity.
  split; [assumption|].
  exact (get_result_is_visible scenario 6 (Reversion 5 0) H).
Defined.

(** X13: on an ordered index whose last generation is empty and follows a
    generation with revisions (the key is deleted), compacting at or above
    the latest revision leaves the single empty generation: [isEmpty()]
    holds afterwards. *)
Theorem compact_empties_deleted_key (ki : keyIndex) (av : gset reversion)
        (atRev : Z) (gs : list generation) (g e : generation) :
  ordered ki ->
  generations ki = gs ++ [g; e] -> revs g <> [] -> revs e = [] ->
  rev ki <= atRev ->
  generations (fst (final (KI.compact atRev (ki, av)))) = [e] /\
  KI.isEmpty (fst (final (KI.compact atRev (ki, av)))) = true.
Proof. apply compact_deleted_key. Qed.

Lemma compact_empties_deleted_key_witness :
  ordered scenario /\
  generations scenario = [first_generation] ++ [second_generation; zero_generation] /\
  revs second_generation <> [] /\ revs zero_generation = [] /\
  rev scenario <= 7 /\
  generations (fst (final (KI.compact 7 (scenario, ∅)))) = [zero_generation] /\
  KI.isEmpty (fst (final (KI.compact 7 (scenario, ∅)))) = true.
Proof.
  assert (Ho : ordered scenario) by exact scenario_ordered.
  assert (Hg : generations scenario
               = [first_generation] ++ [second_generation; zero_generation])
    by reflexivity.
  assert (Hr : revs second_generation <> []) by discriminate.
  assert (He : revs zero_generation = []) by reflexivity.
  assert (Hle : rev scenario <= 7) by (simpl; lia).
  repeat (split; [assumption|]).
  exact (compact_empties_deleted_key scenario ∅ 7 [first_generation]
           second_generation zero_generation Ho Hg Hr He Hle).
Defined.

(** X14: in an index built from nothing by puts and tombstones, the
    version of every generation is the number of its revisions, in 64-bit
    two's complement. *)
Theorem version_counts_revisions (k : list byte) (ops : list op) (ki : keyIndex) :
  run ops (fresh k) = Done tt ki -> counted ki.
Proof. apply run_counted. constructor. Qed.

Lemma version_counts_revisions_witness :
  run scenario_ops (fresh foo) = Done tt scenario /\ counted scenario.
Proof.
  assert (H : run scenario_ops (fresh foo) = Done tt scenario) by reflexivity.
  split; [assumption|].
  exact (version_counts_revisions foo scenario_ops scenario H).
Defined.

(** X17: with a closure that has no effect, [walk] goes through the
    revisions from the newest to the oldest and returns the position of
    the first one the closure answers false for, or -1 when it answers
    true for all; the state is untouched. *)
Theorem walk_stops_at_newest_rejected {St : Type} (p : reversion -> bool)
        (g : generation) (s : St) :
  exists n, Gen.walk g (fun r => ret (p r)) s = Done n s /\
    ((n = -1 /\ forall m r, revs g !! m = Some r -> p r = true) \/
     (exists j r, n = Z.of_nat j /\ revs g !! j = Some r /\ p r = false /\
        forall m r', (j < m)%nat -> revs g !! m = Some r' -> p r' = true)).
Proof.
  destruct (walk_loop_pure p (revs g) (length (revs g)) s (le_n _)) as (n & Hw & Hn).
  exists n. split; [exact Hw|].
  destruct Hn as [[-> Hall]|(j & r & -> & Hj & Hr & Hp & Hall)].
  - left. split; [reflexivity|]. intros m r Hr. apply (Hall m r); [|exact Hr].
    apply lookup_lt_Some in Hr. exact Hr.
  - right. exists j, r. repeat split; auto. intros m r' Hm Hr'.
    apply (Hall m r'); [|exact Hr']. apply lookup_lt_Some in Hr'. lia.
Qed.

(** X18: compacting at [a] and then at [b >= a] leaves the same index as
    compacting at [b] at once. *)
Theorem compact_in_steps_same_index (ki : keyIndex) (av : gset reversion) (a b : Z) :
  a <= b ->
  fst (final (KI.compact b (final (KI.compact a (ki, av)))))
  = fst (final (KI.compact b (ki, av))).
Proof. apply compact_in_steps. Qed.

Lemma compact_in_steps_same_index_witness :
  2 <= 4 /\
  fst (final (KI.compact 4 (final (KI.compact 2 (scenario, ∅)))))
  = fst (final (KI.compact 4 (scenario, ∅))).
Proof.
  assert (H : 2 <= 4) by lia.
  split; [assumption|].
  exact (compact_in_steps_same_index scenario ∅ 2 4 H).
Defined.

(** X16: [Less] is a strict total order on the keys: it is irreflexive and
    transitive, and two indexes are unordered exactly when their keys are
    the same bytes. *)
Theorem Less_strict_total_order (a b c : keyIndex) :
  KI.Less a a = false /\
  (KI.Less a b = true -> KI.Less b c = true -> KI.Less a c = true) /\
  (KI.Less a b = true -> KI.Less b a = false) /\
  (KI.Less a b = false /\ KI.Less b a = false <-> key a = key b).
Proof.
  unfold KI.Less. repeat split.
  - apply Z.eqb_neq. rewrite (proj2 (bytes_Compare_eq (key a) (key a)) eq_refl). lia.
  - intros H1%Z.eqb_eq H2%Z.eqb_eq. apply Z.eqb_eq. eapply bytes_Compare_trans; eauto.
  - intros H1%Z.eqb_eq. apply Z.eqb_neq. apply bytes_Compare_flip in H1.
    intros H2. rewrite H2 in H1. discriminate H1.
  - intros [H1%Z.eqb_neq H2%Z.eqb_neq]. apply bytes_Compare_eq.
    destruct (bytes_Compare_range (key a) (key b)) as [H|[H|H]]; [contradiction|assumption|].
    apply bytes_Compare_flip in H. contradiction.
  - apply Z.eqb_neq. rewrite (proj2 (bytes_Compare_eq _ _) H). lia.
  - apply Z.eqb_neq. rewrite (proj2 (bytes_Compare_eq _ _) (eq_sym H)). lia.
Qed.

(** X15: [equal] holds exactly of two indexes with the same key bytes, the same
    latest revision and the same generations, version counters and
    revisions included. *)
Theorem equal_iff_same (a b : keyIndex) : KI.equal a b = true <-> a = b.
Proof.
  unfold KI.equal.
  destruct (bytes.Equal (key a) (key b)) eqn:Hk; simpl.
  2:{ split; [discriminate|]. intros ->.
      rewrite (proj2 (bytes_Equal_eq (key b) (key b)) eq_refl) in Hk. discriminate. }
  apply bytes_Equal_eq in Hk.
  destruct (Z.eqb_spec (rev a) (rev b)) as [Hr|Hr]; simpl.
  2:{ split; [discriminate|]. intros ->. contradiction. }
  destruct (Z.eqb_spec (Z.of_nat (length (generations a)))
                       (Z.of_nat (length (generations b)))) as [Hl|Hl]; simpl.
  2:{ split; [discriminate|]. intros ->. contradiction. }
  rewrite (loop_decides Gen.equal KI.equal_loop Gen_equal_eq
             ltac:(intros ? ? ? []; reflexivity) (generations a) (generations b)
             ltac:(lia) (length (generations a)) 0%nat eq_refl).
  rewrite !drop_0. destruct a, b; simpl in *. split; [intros ->; congruence|].
  intros [= _ _ ->]. reflexivity.
Qed.

(** X1: a write either is rejected with a panic that leaves the index
    untouched, or returns; it is rejected exactly when its [main] is below
    the latest revision or it is a tombstone on a logically empty index. *)
Theorem write_rejected_or_done (o : op) (ki : keyIndex) :
  if rejected o ki
  then apply_op o ki = Panicked ki
  else exists ki', apply_op o ki = Done tt ki'.
Proof.
  unfold rejected. destruct o as [r s|r s]; simpl.
  - rewrite orb_false_r, put_eq. destruct (r <? rev ki); eauto.
  - rewrite tombstone_eq, put_eq.
    destruct (KI.isEmpty ki); [rewrite orb_true_r; reflexivity|].
    rewrite orb_false_r. destruct (r <? rev ki); eauto.
Qed.

(** X2: a write that returns appends its revision to the history and leaves
    every older revision where it was. *)
Theorem write_appends_to_history (o : op) (ki ki' : keyIndex) :
  apply_op o ki = Done tt ki' ->
  history ki' = history ki ++ [op_rev o].
Proof. apply apply_op_history. Qed.

Lemma write_appends_to_history_witness :
  apply_op (Tombstone 6 0) (fresh foo) = Done tt deleted_at_6 /\
  history deleted_at_6 = history (fresh foo) ++ [op_rev (Tombstone 6 0)].
Proof.
  assert (H : apply_op (Tombstone 6 0) (fresh foo) = Done tt deleted_at_6) by reflexivity.
  split; [assumption|].
  exact (write_appends_to_history (Tombstone 6 0) (fresh foo) deleted_at_6 H).
Defined.

(** X3: a put rewrites the last generation only: the revision goes to its end
    and its version goes up by one; a first generation is made for a key
    that has none.  A tombstone does the same and then opens an empty
    generation. *)
Theorem write_touches_last_generation (o : op) (ki ki' : keyIndex) :
  apply_op o ki = Done tt ki' ->
  exists gs g,
    (generations ki = gs ++ [g] \/ (generations ki = [] /\ gs = [] /\ g = zero_generation)) /\
    generations ki' =
    gs ++ [Generation (wrap64 (ver g + 1)) (revs g ++ [op_rev o])]
       ++ match o with Put _ _ => [] | Tombstone _ _ => [zero_generation] end.
Proof. apply apply_op_shape. Qed.

Lemma write_touches_last_generation_witness :
  apply_op (Put 6 1) scenario = Done tt put_6_1 /\
  exists gs g,
    (generations scenario = gs ++ [g] \/
     (generations scenario = [] /\ gs = [] /\ g = zero_generation)) /\
    generations put_6_1 =
    gs ++ [Generation (wrap64 (ver g + 1)) (revs g ++ [op_rev (Put 6 1)])] ++ [].
Proof.
  assert (H : apply_op (Put 6 1) scenario = Done tt put_6_1) by reflexivity.
  split; [assumption|].
  exact (write_touches_last_generation (Put 6 1) scenario put_6_1 H).
Defined.
